(** * atc2json: the ATC container parser and its checksum validator

    A shallow embedding of [atc2json/atc2json.go].  Byte buffers are
    [list byte]; Go's fixed-width integers are [Z] with the wrap-around
    written out; [float32] is IEEE binary32 through [SpecFloat]
    (precision 24, emax 128); [int] is taken to be 64 bits wide, so that
    no length of the source overflows it.  A run of [Parse] ends in a
    value, in a returned [error], or in a run-time panic. *)

From Stdlib Require Import Strings.String Strings.Ascii Strings.Byte.
From Stdlib Require Import ZArith List Lia Bool.
From Stdlib Require Import Sorting.Permutation.
From Stdlib Require Import Floats.SpecFloat.
Import ListNotations.
Local Open Scope Z_scope.

(** ** Machine integers *)

(** [byte] is Go's [uint8]; its numeric value is in [0, 255]. *)
Definition u8 (b : byte) : Z := Z.of_N (Byte.to_N b).

(** Conversion [int32(b)] of a [byte]: zero extension. *)
Definition int32_of_byte (b : byte) : Z := u8 b.

(** Two's complement wrap-around of the signed and unsigned types. *)
Definition wrap_int32 (z : Z) : Z := (z + 2 ^ 31) mod 2 ^ 32 - 2 ^ 31.
Definition wrap_uint32 (z : Z) : Z := z mod 2 ^ 32.
Definition wrap_int16 (z : Z) : Z := (z + 2 ^ 15) mod 2 ^ 16 - 2 ^ 15.

(** Conversions [uint32(x)] of an [int32] and [int16(x)] of a [uint16]. *)
Definition uint32_of_int32 (z : Z) : Z := wrap_uint32 z.
Definition int16_of_uint16 (z : Z) : Z := wrap_int16 z.

(** ** Outcomes of a run *)

(** The two errors [io.ReadFull] gives on a [bytes.Reader]. *)
Inductive io_error : Type :=
| EOF
| ErrUnexpectedEOF.

(** The errors [Parse] and [Convert] return, one constructor per
    [fmt.Errorf] format string of the source, and the error of
    [json.Marshal] on a float that is not finite. *)
Inductive error : Type :=
| WrongFileSignature
| ErrorReadingFile (e : io_error)
| ErrorReadingBuffer (e : io_error)
| ErrorReadingInput (e : io_error)
| ChecksumDoesNotMatch (stored calculated : Z)
| JsonUnsupportedValue.

(** Run-time panics of the Go runtime that the source can reach. *)
Inductive panic : Type :=
| NilPointerDereference
| SliceBoundsOutOfRange.

Inductive outcome (A : Type) : Type :=
| Ok (a : A)
| Err (e : error)
| Panic (p : panic).
Arguments Ok {A} a.
Arguments Err {A} e.
Arguments Panic {A} p.

(** The specification's two error kinds: every returned parse error that
    is not a checksum mismatch is a format error. *)
Definition is_ChecksumError (e : error) : bool :=
  match e with ChecksumDoesNotMatch _ _ => true | _ => false end.

Definition is_FormatError (e : error) : bool :=
  match e with
  | WrongFileSignature | ErrorReadingFile _
  | ErrorReadingBuffer _ | ErrorReadingInput _ => true
  | _ => false
  end.

(** ** Byte slices and readers *)

(** A Go [[]byte]: its [len] elements, and the content of the backing
    array between [len] and [cap], which a slice expression may reach. *)
Record ByteSlice : Type := mkSlice {
  elems : list byte;
  beyond : list byte
}.

Definition len (d : ByteSlice) : Z := Z.of_nat (length (elems d)).
Definition cap (d : ByteSlice) : Z :=
  Z.of_nat (length (elems d)) + Z.of_nat (length (beyond d)).

(** The slice expression [d[lo:hi]]: it panics unless
    [0 <= lo <= hi <= cap(d)]. *)
Definition slice_expr (d : ByteSlice) (lo hi : Z) : option (list byte) :=
  if (0 <=? lo) && (lo <=? hi) && (hi <=? cap d)
  then Some (firstn (Z.to_nat (hi - lo))
                    (skipn (Z.to_nat lo) (elems d ++ beyond d)))
  else None.

(** A [bytes.Reader] is represented by its unread portion [r.s[r.i:]]. *)
Definition Reader : Type := list byte.

Definition NewReader (b : list byte) : Reader := b.

(** [reader.Len()]: the number of unread bytes. *)
Definition Reader_Len (r : Reader) : Z := Z.of_nat (length r).

(** [reader.Read(buf)] with [len(buf) = n]: [io.EOF] when nothing is left
    to read, and otherwise [min n (Len r)] bytes and no error. *)
Definition Reader_Read (n : Z) (r : Reader) : (list byte + io_error) * Reader :=
  match r with
  | [] => (inr EOF, r)
  | _ :: _ =>
      let k := Z.to_nat (Z.min n (Reader_Len r)) in
      (inl (firstn k r), skipn k r)
  end.

(** [io.ReadFull(r, buf)] with [len(buf) = n] on a [bytes.Reader]: an
    empty buffer is filled at once; with nothing left the error is
    [io.EOF]; with fewer than [n] bytes left they are consumed and the
    error is [io.ErrUnexpectedEOF]. *)
Definition ReadFull (n : Z) (r : Reader) : (list byte + io_error) * Reader :=
  if n <=? 0 then (inl [], r)
  else if Reader_Len r =? 0 then (inr EOF, r)
  else if Reader_Len r <? n then (inr ErrUnexpectedEOF, [])
  else (inl (firstn (Z.to_nat n) r), skipn (Z.to_nat n) r).

(** [binary.Read(r, binary.LittleEndian, &x)] for a value of encoded
    size [size]: the value is decoded only when all bytes were read. *)
Definition binary_Read {A : Type} (size : Z) (decode : list byte -> A)
    (r : Reader) : (A + io_error) * Reader :=
  match ReadFull size r with
  | (inl bs, r') => (inl (decode bs), r')
  | (inr e, r') => (inr e, r')
  end.

(** ** Little-endian decoding *)

Definition byte_at (bs : list byte) (i : nat) : byte := nth i bs x00.

Definition LittleEndian_Uint16 (b : list byte) : Z :=
  Z.lor (u8 (byte_at b 0)) (Z.shiftl (u8 (byte_at b 1)) 8).

Definition LittleEndian_Uint32 (b : list byte) : Z :=
  Z.lor (Z.lor (Z.lor (u8 (byte_at b 0)) (Z.shiftl (u8 (byte_at b 1)) 8))
               (Z.shiftl (u8 (byte_at b 2)) 16))
        (Z.shiftl (u8 (byte_at b 3)) 24).

(** A [[]int16] of [length bs / 2] elements, two bytes each. *)
Fixpoint decode_int16s (bs : list byte) : list Z :=
  match bs with
  | b0 :: b1 :: rest =>
      int16_of_uint16 (LittleEndian_Uint16 [b0; b1]) :: decode_int16s rest
  | _ => []
  end.

(** ** Records of the container *)

Definition AtcFileSignature : list byte :=
  [x41; x4c; x49; x56; x45; x00; x00; x00].

Definition ChecksumLength : Z := 4.

Record AtcFileHeader : Type := {
  FileSignature : list byte;
  FileVersion : Z
}.

Record BlockHeader : Type := {
  BlockId : list byte;
  Length : Z
}.

(** The field [Frequency] of [FmtBlock] is [Frequency_] here, the name
    being taken by the field of [EcgData]. *)
Record FmtBlock : Type := {
  Format : byte;
  Frequency_ : Z;
  Resolution : Z;
  Flags : byte;
  Reserved : Z
}.

Record InfoBlock : Type := {
  DateRecorded : list byte;
  RecordingUUID : list byte;
  PhoneUDID : list byte;
  PhoneModel : list byte;
  RecorderSoftware : list byte;
  RecorderHardware : list byte;
  Location : list byte
}.

Record EcgSamples : Type := {
  LeadI : option (list Z);
  LeadII : option (list Z);
  LeadIII : option (list Z);
  AVR : option (list Z);
  AVL : option (list Z);
  AVF : option (list Z)
}.

Record EcgData : Type := {
  Frequency : spec_float;
  MainsFrequency : Z;
  Gain : spec_float;
  Samples : EcgSamples;
  Info : option InfoBlock
}.

(** The zero value of [AtcFileHeader]. *)
Definition zero_AtcFileHeader : AtcFileHeader :=
  {| FileSignature := repeat x00 8; FileVersion := 0 |}.

Definition bytes_at (bs : list byte) (off n : nat) : list byte :=
  firstn n (skipn off bs).

Definition decode_AtcFileHeader (bs : list byte) : AtcFileHeader :=
  {| FileSignature := bytes_at bs 0 8;
     FileVersion := LittleEndian_Uint32 (bytes_at bs 8 4) |}.

Definition decode_BlockHeader (bs : list byte) : BlockHeader :=
  {| BlockId := bytes_at bs 0 4;
     Length := LittleEndian_Uint32 (bytes_at bs 4 4) |}.

Definition decode_FmtBlock (bs : list byte) : FmtBlock :=
  {| Format := byte_at bs 0;
     Frequency_ := LittleEndian_Uint16 (bytes_at bs 1 2);
     Resolution := LittleEndian_Uint16 (bytes_at bs 3 2);
     Flags := byte_at bs 5;
     Reserved := LittleEndian_Uint16 (bytes_at bs 6 2) |}.

Definition decode_InfoBlock (bs : list byte) : InfoBlock :=
  {| DateRecorded := bytes_at bs 0 32;
     RecordingUUID := bytes_at bs 32 40;
     PhoneUDID := bytes_at bs 72 44;
     PhoneModel := bytes_at bs 116 32;
     RecorderSoftware := bytes_at bs 148 32;
     RecorderHardware := bytes_at bs 180 32;
     Location := bytes_at bs 212 52 |}.

(** Encoded sizes of the fixed records ([binary.Size]). *)
Definition size_AtcFileHeader : Z := 12.
Definition size_BlockHeader : Z := 8.
Definition size_FmtBlock : Z := 8.
Definition size_InfoBlock : Z := 264.

(** ** The checksum validator *)

(** [calcChecksum]: an [int32] accumulator, each byte added after
    conversion with [int32(b)], the total converted to [uint32]. *)
Definition calcChecksum (data : list byte) : Z :=
  uint32_of_int32
    (fold_left (fun sum b => wrap_int32 (sum + int32_of_byte b)) data 0).

(** [verifyChecksum]: the result of reading the stored value is not
    checked, so a failed read leaves [checksum] at 0.  On success the
    reader, advanced past the stored checksum, is returned. *)
Definition verifyChecksum (data : ByteSlice) (blockStart blockLen : Z)
    (reader : Reader) : outcome Reader :=
  let '(res, reader) := binary_Read 4 LittleEndian_Uint32 reader in
  let checksum := match res with inl c => c | inr _ => 0 end in
  match slice_expr data blockStart (blockStart + 8 + blockLen) with
  | None => Panic SliceBoundsOutOfRange
  | Some span =>
      let sum := calcChecksum span in
      if negb (checksum =? sum)
      then Err (ChecksumDoesNotMatch checksum sum)
      else Ok reader
  end.

(** ** The container reader *)

Definition bind {A B : Type} (m : outcome A) (k : A -> outcome B) : outcome B :=
  match m with
  | Ok a => k a
  | Err e => Err e
  | Panic p => Panic p
  end.

Notation "x <- m ;; k" := (bind m (fun x => k))
  (at level 61, m at next level, right associativity).
Notation "' p <- m ;; k" := (bind m (fun x => match x with p => k end))
  (at level 61, p pattern, m at next level, right associativity).

Fixpoint bytes_eqb (a b : list byte) : bool :=
  match a, b with
  | [], [] => true
  | x :: a', y :: b' => Byte.eqb x y && bytes_eqb a' b'
  | _, _ => false
  end.

(** The four bytes of a block identifier written as a string literal. *)
Definition tag (s : string) : list byte := list_byte_of_string s.

(** The variables of [Parse] that the block loop assigns; [None] is
    Go's [nil]. *)
Record Locals : Type := {
  leadISamples : option (list Z);
  leadIISamples : option (list Z);
  leadIIISamples : option (list Z);
  aVRSamples : option (list Z);
  aVLSamples : option (list Z);
  aVFSamples : option (list Z);
  fmtBlock : option FmtBlock;
  infoBlock : option InfoBlock
}.

Definition init_Locals : Locals :=
  {| leadISamples := None; leadIISamples := None; leadIIISamples := None;
     aVRSamples := None; aVLSamples := None; aVFSamples := None;
     fmtBlock := None; infoBlock := None |}.

Definition set_leadISamples (v : Locals) (s : list Z) : Locals :=
  {| leadISamples := Some s; leadIISamples := leadIISamples v;
     leadIIISamples := leadIIISamples v; aVRSamples := aVRSamples v;
     aVLSamples := aVLSamples v; aVFSamples := aVFSamples v;
     fmtBlock := fmtBlock v; infoBlock := infoBlock v |}.

Definition set_leadIISamples (v : Locals) (s : list Z) : Locals :=
  {| leadISamples := leadISamples v; leadIISamples := Some s;
     leadIIISamples := leadIIISamples v; aVRSamples := aVRSamples v;
     aVLSamples := aVLSamples v; aVFSamples := aVFSamples v;
     fmtBlock := fmtBlock v; infoBlock := infoBlock v |}.

Definition set_leadIIISamples (v : Locals) (s : list Z) : Locals :=
  {| leadISamples := leadISamples v; leadIISamples := leadIISamples v;
     leadIIISamples := Some s; aVRSamples := aVRSamples v;
     aVLSamples := aVLSamples v; aVFSamples := aVFSamples v;
     fmtBlock := fmtBlock v; infoBlock := infoBlock v |}.

Definition set_aVRSamples (v : Locals) (s : list Z) : Locals :=
  {| leadISamples := leadISamples v; leadIISamples := leadIISamples v;
     leadIIISamples := leadIIISamples v; aVRSamples := Some s;
     aVLSamples := aVLSamples v; aVFSamples := aVFSamples v;
     fmtBlock := fmtBlock v; infoBlock := infoBlock v |}.

Definition set_aVLSamples (v : Locals) (s : list Z) : Locals :=
  {| leadISamples := leadISamples v; leadIISamples := leadIISamples v;
     leadIIISamples := leadIIISamples v; aVRSamples := aVRSamples v;
     aVLSamples := Some s; aVFSamples := aVFSamples v;
     fmtBlock := fmtBlock v; infoBlock := infoBlock v |}.

Definition set_aVFSamples (v : Locals) (s : list Z) : Locals :=
  {| leadISamples := leadISamples v; leadIISamples := leadIISamples v;
     leadIIISamples := leadIIISamples v; aVRSamples := aVRSamples v;
     aVLSamples := aVLSamples v; aVFSamples := Some s;
     fmtBlock := fmtBlock v; infoBlock := infoBlock v |}.

Definition set_fmtBlock (v : Locals) (f : FmtBlock) : Locals :=
  {| leadISamples := leadISamples v; leadIISamples := leadIISamples v;
     leadIIISamples := leadIIISamples v; aVRSamples := aVRSamples v;
     aVLSamples := aVLSamples v; aVFSamples := aVFSamples v;
     fmtBlock := Some f; infoBlock := infoBlock v |}.

Definition set_infoBlock (v : Locals) (i : InfoBlock) : Locals :=
  {| leadISamples := leadISamples v; leadIISamples := leadIISamples v;
     leadIIISamples := leadIIISamples v; aVRSamples := aVRSamples v;
     aVLSamples := aVLSamples v; aVFSamples := aVFSamples v;
     fmtBlock := fmtBlock v; infoBlock := Some i |}.

(** The body shared by the cases ["fmt "] and ["info"]: decode the fixed
    record from the stream, whatever length the block declares, then
    verify the checksum over the declared length. *)
Definition record_block {A : Type} (size : Z) (decode : list byte -> A)
    (atcData : ByteSlice) (blockStart : Z) (blockHeader : BlockHeader)
    (reader : Reader) : outcome (A * Reader) :=
  match binary_Read size decode reader with
  | (inr e, _) => Err (ErrorReadingBuffer e)
  | (inl rec, reader) =>
      reader <- verifyChecksum atcData blockStart (Length blockHeader) reader ;;
      Ok (rec, reader)
  end.

(** The body shared by the six sample cases: [make([]int16, Length/2)],
    decode that many elements, then verify the checksum over the
    declared length. *)
Definition sample_block (atcData : ByteSlice) (blockStart : Z)
    (blockHeader : BlockHeader) (reader : Reader) : outcome (list Z * Reader) :=
  let n := Length blockHeader / 2 in
  match binary_Read (2 * n) decode_int16s reader with
  | (inr e, _) => Err (ErrorReadingBuffer e)
  | (inl samples, reader) =>
      reader <- verifyChecksum atcData blockStart (Length blockHeader) reader ;;
      Ok (samples, reader)
  end.

(** The [default] case: a buffer of [Length + ChecksumLength] bytes, the
    sum taken in [uint32], filled by one [reader.Read]. *)
Definition discard_block (blockHeader : BlockHeader) (reader : Reader)
    : outcome Reader :=
  let n := wrap_uint32 (Length blockHeader + ChecksumLength) in
  match Reader_Read n reader with
  | (inr e, _) => Err (ErrorReadingInput e)
  | (inl _, reader) => Ok reader
  end.

(** The [switch blockType] of the loop body. *)
Definition block (atcData : ByteSlice) (blockStart : Z)
    (blockHeader : BlockHeader) (v : Locals) (reader : Reader)
    : outcome (Locals * Reader) :=
  let blockType := BlockId blockHeader in
  if bytes_eqb blockType (tag "fmt ") then
    '(f, reader) <- record_block size_FmtBlock decode_FmtBlock
                      atcData blockStart blockHeader reader ;;
    Ok (set_fmtBlock v f, reader)
  else if bytes_eqb blockType (tag "info") then
    '(i, reader) <- record_block size_InfoBlock decode_InfoBlock
                      atcData blockStart blockHeader reader ;;
    Ok (set_infoBlock v i, reader)
  else if bytes_eqb blockType (tag "ecg ") then
    '(s, reader) <- sample_block atcData blockStart blockHeader reader ;;
    Ok (set_leadISamples v s, reader)
  else if bytes_eqb blockType (tag "ecg2") then
    '(s, reader) <- sample_block atcData blockStart blockHeader reader ;;
    Ok (set_leadIISamples v s, reader)
  else if bytes_eqb blockType (tag "ecg3") then
    '(s, reader) <- sample_block atcData blockStart blockHeader reader ;;
    Ok (set_leadIIISamples v s, reader)
  else if bytes_eqb blockType (tag "ecg4") then
    '(s, reader) <- sample_block atcData blockStart blockHeader reader ;;
    Ok (set_aVRSamples v s, reader)
  else if bytes_eqb blockType (tag "ecg5") then
    '(s, reader) <- sample_block atcData blockStart blockHeader reader ;;
    Ok (set_aVLSamples v s, reader)
  else if bytes_eqb blockType (tag "ecg6") then
    '(s, reader) <- sample_block atcData blockStart blockHeader reader ;;
    Ok (set_aVFSamples v s, reader)
  else
    reader <- discard_block blockHeader reader ;;
    Ok (v, reader).

(** The [for] loop of [Parse].  [blocks fuel] runs at most [fuel]
    iterations and is [None] when they do not suffice; every iteration
    that continues has consumed a block header, so the number of unread
    bytes plus one always suffices ([blocks_terminates]). *)
Fixpoint blocks (fuel : nat) (atcData : ByteSlice) (v : Locals)
    (reader : Reader) : option (outcome Locals) :=
  match fuel with
  | O => None
  | S fuel =>
      let blockStart := len atcData - Reader_Len reader in
      match binary_Read size_BlockHeader decode_BlockHeader reader with
      | (inr EOF, _) => Some (Ok v)
      | (inr e, _) => Some (Err (ErrorReadingFile e))
      | (inl blockHeader, reader) =>
          match block atcData blockStart blockHeader v reader with
          | Ok (v, reader) => blocks fuel atcData v reader
          | Err e => Some (Err e)
          | Panic p => Some (Panic p)
          end
      end
  end.

(** ** [float32] *)

Definition float32_of_Z (z : Z) : spec_float := binary_normalize 24 128 z 0 false.
Definition float32_div (x y : spec_float) : spec_float := SFdiv 24 128 x y.

(** The statements of [Parse] after the loop.  [fmtBlock.Resolution]
    dereferences [fmtBlock], which panics on [nil]. *)
Definition build_result (v : Locals) : outcome EcgData :=
  match fmtBlock v with
  | None => Panic NilPointerDereference
  | Some f =>
      Ok {| Gain := float32_div (float32_of_Z 1000000) (float32_of_Z (Resolution f));
            Frequency := float32_of_Z (Frequency_ f);
            MainsFrequency := if negb (Z.land (u8 (Flags f)) 2 =? 0) then 60 else 50;
            Samples := {| LeadI := leadISamples v; LeadII := leadIISamples v;
                          LeadIII := leadIIISamples v; AVR := aVRSamples v;
                          AVL := aVLSamples v; AVF := aVFSamples v |};
            Info := infoBlock v |}
  end.

(** The file header is read without looking at the error: when fewer
    than 12 bytes are there, [header] keeps its zero value. *)
Definition read_header (reader : Reader) : AtcFileHeader * Reader :=
  match binary_Read size_AtcFileHeader decode_AtcFileHeader reader with
  | (inl h, reader) => (h, reader)
  | (inr _, reader) => (zero_AtcFileHeader, reader)
  end.

(** The outcome of the block loop of [Parse] on [atcData], the file
    header already consumed.  It is never [None]
    ([Parse_blocks_terminates]). *)
Definition Parse_blocks (atcData : ByteSlice) : option (outcome Locals) :=
  let reader := NewReader (elems atcData) in
  let '(header, reader) := read_header reader in
  blocks (S (length (elems atcData))) atcData init_Locals reader.

(** [Parse].  The last case of the [match] covers a loop that ran out
    of iterations, which does not happen. *)
Definition Parse (atcData : ByteSlice) : outcome EcgData :=
  let reader := NewReader (elems atcData) in
  let '(header, reader) := read_header reader in
  if negb (bytes_eqb (FileSignature header) AtcFileSignature)
  then Err WrongFileSignature
  else
    match blocks (S (length (elems atcData))) atcData init_Locals reader with
    | Some (Ok v) => build_result v
    | Some (Err e) => Err e
    | Some (Panic p) => Panic p
    | None => Err (ErrorReadingFile EOF)
    end.

(** ** Serialization *)

(** The JSON value [json.Marshal] builds, before it is written out as
    text: objects keep their keys in the order of the struct fields. *)
Local Unset Elimination Schemes.
Inductive json : Type :=
| JNull
| JInt (z : Z)
| JFloat (f : spec_float)
| JArray (l : list json)
| JObject (fields : list (string * json)).
Local Set Elimination Schemes.

(** A float that is infinite or not a number is refused by the encoder. *)
Definition marshal_float32 (f : spec_float) : outcome json :=
  match f with
  | S754_infinity _ | S754_nan => Err JsonUnsupportedValue
  | _ => Ok (JFloat f)
  end.

(** A [[]int16]: [null] for a nil slice, an array of numbers otherwise. *)
Definition marshal_int16s (s : option (list Z)) : json :=
  match s with
  | None => JNull
  | Some l => JArray (map JInt l)
  end.

(** A field tagged [omitempty]: left out when the slice has length 0,
    nil or not. *)
Definition field_omitempty (key : string) (s : option (list Z))
    : list (string * json) :=
  match s with
  | None | Some [] => []
  | Some (_ :: _) => [(key, marshal_int16s s)]
  end.

(** A fixed-size byte array is an array of numbers. *)
Definition marshal_bytes (bs : list byte) : json :=
  JArray (map (fun b => JInt (u8 b)) bs).

Definition marshal_EcgSamples (s : EcgSamples) : json :=
  JObject
    ([("leadI"%string, marshal_int16s (LeadI s))]
       ++ field_omitempty "leadII" (LeadII s)
       ++ field_omitempty "leadIII" (LeadIII s)
       ++ field_omitempty "aVR" (AVR s)
       ++ field_omitempty "aVL" (AVL s)
       ++ field_omitempty "aVF" (AVF s)).

Definition marshal_InfoBlock (i : option InfoBlock) : json :=
  match i with
  | None => JNull
  | Some i =>
      JObject
        [("DateRecorded"%string, marshal_bytes (DateRecorded i));
         ("RecordingUUID"%string, marshal_bytes (RecordingUUID i));
         ("PhoneUDID"%string, marshal_bytes (PhoneUDID i));
         ("PhoneModel"%string, marshal_bytes (PhoneModel i));
         ("RecorderSoftware"%string, marshal_bytes (RecorderSoftware i));
         ("RecorderHardware"%string, marshal_bytes (RecorderHardware i));
         ("Location"%string, marshal_bytes (Location i))]
  end.

(** [json.Marshal(&ecgData)] by the struct tags of [EcgData] and
    [EcgSamples]: [Info] has no tag and [leadI] no [omitempty]. *)
Definition Marshal (d : EcgData) : outcome json :=
  frequency <- marshal_float32 (Frequency d) ;;
  gain <- marshal_float32 (Gain d) ;;
  Ok (JObject
        [("frequency"%string, frequency);
         ("mainsFrequency"%string, JInt (MainsFrequency d));
         ("gain"%string, gain);
         ("samples"%string, marshal_EcgSamples (Samples d));
         ("Info"%string, marshal_InfoBlock (Info d))]).

Definition Convert (atcData : ByteSlice) : outcome json :=
  ecgData <- Parse atcData ;;
  Marshal ecgData.

(** The keys of an object, and the value under a key. *)
Definition keys (j : json) : list string :=
  match j with
  | JObject fields => map fst fields
  | _ => []
  end.

Fixpoint assoc (key : string) (fields : list (string * json)) : option json :=
  match fields with
  | [] => None
  | (k, v) :: rest => if String.eqb k key then Some v else assoc key rest
  end.

Definition field (key : string) (j : json) : option json :=
  match j with
  | JObject fields => assoc key fields
  | _ => None
  end.

(** ** Files as the format lays them out *)

Definition byte_of_Z (z : Z) : byte :=
  match Byte.of_N (Z.to_N (z mod 256)) with
  | Some b => b
  | None => x00
  end.

(** Little-endian encodings of 16-bit and 32-bit values. *)
Definition le16 (z : Z) : list byte := [byte_of_Z z; byte_of_Z (z / 2 ^ 8)].

Definition le32 (z : Z) : list byte :=
  [byte_of_Z z; byte_of_Z (z / 2 ^ 8); byte_of_Z (z / 2 ^ 16);
   byte_of_Z (z / 2 ^ 24)].

(** The sum of the byte values of a span, each taken in [0, 255]. *)
Definition byte_sum (data : list byte) : Z :=
  fold_right (fun b acc => u8 b + acc) 0 data.

(** The sum of the byte values, each read as a signed 8-bit integer. *)
Definition int8_of_byte (b : byte) : Z :=
  if u8 b <? 128 then u8 b else u8 b - 256.

Definition signed_byte_sum (data : list byte) : Z :=
  fold_right (fun b acc => int8_of_byte b + acc) 0 data.

(** The checksum as the specification words it: signed byte values
    added up in a signed 32-bit accumulator, the total reinterpreted as
    unsigned. *)
Definition signed_checksum_spec (data : list byte) : Z :=
  uint32_of_int32
    (fold_left (fun sum b => wrap_int32 (sum + int8_of_byte b)) data 0).

(** The span a checksum covers: identifier, length and payload. *)
Definition block_span (id payload : list byte) : list byte :=
  id ++ le32 (Z.of_nat (length payload)) ++ payload.

(** A block with its trailing checksum, the byte sum modulo 2^32. *)
Definition encode_block (id payload : list byte) : list byte :=
  block_span id payload ++ le32 (byte_sum (block_span id payload) mod 2 ^ 32).

Definition encode_samples (samples : list Z) : list byte :=
  flat_map le16 samples.

Definition encode_FmtBlock (f : FmtBlock) : list byte :=
  [Format f] ++ le16 (Frequency_ f) ++ le16 (Resolution f)
    ++ [Flags f] ++ le16 (Reserved f).

(** The 12-byte file header for a version. *)
Definition encode_header (version : Z) : list byte :=
  AtcFileSignature ++ le32 version.

(** The six sample tags, each with the variable its case assigns. *)
Definition sample_tags : list (list byte * (Locals -> list Z -> Locals)) :=
  [(tag "ecg ", set_leadISamples); (tag "ecg2", set_leadIISamples);
   (tag "ecg3", set_leadIIISamples); (tag "ecg4", set_aVRSamples);
   (tag "ecg5", set_aVLSamples); (tag "ecg6", set_aVFSamples)].

(** The identifiers that have a case of their own in the [switch]. *)
Definition known_tag (id : list byte) : bool :=
  existsb (bytes_eqb id)
    [tag "fmt "; tag "info"; tag "ecg "; tag "ecg2"; tag "ecg3"; tag "ecg4";
     tag "ecg5"; tag "ecg6"].

(** A slice that is there and has at least one element. *)
Definition nonempty (s : option (list Z)) : bool :=
  match s with
  | Some (_ :: _) => true
  | _ => false
  end.

(** ** Conversion to millivolts *)

(** [calcMillivolts]: every sample, converted with [float32(sample)],
    divided by [scale], in the order of [data]. *)
Definition calcMillivolts (data : list Z) (scale : spec_float) : list spec_float :=
  map (fun sample => float32_div (float32_of_Z sample) scale) data.

(** ** States of the block loop *)

(** A buffer with a complete file header that carries the signature. *)
Definition valid_header (d : ByteSlice) : Prop :=
  (12 <= length (elems d))%nat /\ firstn 8 (elems d) = AtcFileSignature.

(** [loop_reaches d v r]: in the run of [Parse] on [d], the loop comes
    to the top of an iteration with the variables at [v] and the bytes
    [r] unread. *)
Inductive loop_reaches (d : ByteSlice) : Locals -> Reader -> Prop :=
| reaches_first : loop_reaches d init_Locals (skipn 12 (elems d))
| reaches_next (v : Locals) (r : Reader) (h : BlockHeader) (r1 : Reader)
    (v' : Locals) (r' : Reader) :
    loop_reaches d v r ->
    binary_Read size_BlockHeader decode_BlockHeader r = (inl h, r1) ->
    block d (len d - Reader_Len r) h v r1 = Ok (v', r') ->
    loop_reaches d v' r'.

(** What [Parse] returns for an outcome of the loop. *)
Definition loop_result (o : option (outcome Locals)) : outcome EcgData :=
  match o with
  | Some (Ok v) => build_result v
  | Some (Err e) => Err e
  | Some (Panic p) => Panic p
  | None => Err (ErrorReadingFile EOF)
  end.

(** The number of payload bytes the case of a known tag decodes for a
    declared length [L]. *)
Definition payload_size (id : list byte) (L : Z) : option Z :=
  if bytes_eqb id (tag "fmt ") then Some size_FmtBlock
  else if bytes_eqb id (tag "info") then Some size_InfoBlock
  else if existsb (bytes_eqb id) (map fst sample_tags) then Some (2 * (L / 2))
  else None.

(** ** Well-formed values *)

Definition in_int16 (s : Z) : Prop := - 2 ^ 15 <= s < 2 ^ 15.

(** A lead that is absent, or whose samples are all values of [int16]. *)
Definition lead_ok (l : option (list Z)) : Prop :=
  match l with
  | Some s => Forall in_int16 s
  | None => True
  end.

(** A format block whose 16-bit fields are values of [uint16]. *)
Definition fmt_ok (f : option FmtBlock) : Prop :=
  match f with
  | Some f =>
      0 <= Frequency_ f < 2 ^ 16 /\ 0 <= Resolution f < 2 ^ 16 /\
      0 <= Reserved f < 2 ^ 16
  | None => True
  end.

(** An info block whose fields have the widths of the arrays. *)
Definition info_ok (i : option InfoBlock) : Prop :=
  match i with
  | Some i =>
      length (DateRecorded i) = 32%nat /\ length (RecordingUUID i) = 40%nat /\
      length (PhoneUDID i) = 44%nat /\ length (PhoneModel i) = 32%nat /\
      length (RecorderSoftware i) = 32%nat /\ length (RecorderHardware i) = 32%nat /\
      length (Location i) = 52%nat
  | None => True
  end.

Definition Locals_ok (v : Locals) : Prop :=
  lead_ok (leadISamples v) /\ lead_ok (leadIISamples v) /\
  lead_ok (leadIIISamples v) /\ lead_ok (aVRSamples v) /\
  lead_ok (aVLSamples v) /\ lead_ok (aVFSamples v) /\
  fmt_ok (fmtBlock v) /\ info_ok (infoBlock v).

(** The errors [Parse] can return: the signature error, a block header
    cut short, a payload cut short, an unknown block with nothing behind
    its header, and two different 32-bit checksum values. *)
Definition Parse_error (e : error) : Prop :=
  match e with
  | WrongFileSignature => True
  | ErrorReadingFile io => io = ErrUnexpectedEOF
  | ErrorReadingBuffer _ => True
  | ErrorReadingInput io => io = EOF
  | ChecksumDoesNotMatch stored calculated =>
      stored <> calculated /\ 0 <= stored < 2 ^ 32 /\ 0 <= calculated < 2 ^ 32
  | JsonUnsupportedValue => False
  end.

(** A float that is a zero or a finite number, the ones the encoder
    accepts. *)
Definition is_finite (f : spec_float) : bool :=
  match f with
  | S754_zero _ | S754_finite _ _ _ => true
  | S754_infinity _ | S754_nan => false
  end.

(** A float that is a finite number of the sign [sign], and not a zero. *)
Definition is_finite_signed (sign : bool) (f : spec_float) : bool :=
  match f with
  | S754_finite s _ _ => Bool.eqb s sign
  | _ => false
  end.

(** ** A small file and its serialization *)



(** [all_below n P]: [P] holds of every integer from 0 up to, and not
    including, [2^n]; the integers are run through by their binary
    digits. *)
Fixpoint all_below (n : nat) (P : Z -> bool) : bool :=
  match n with
  | O => P 0
  | S n => all_below n (fun z => P (2 * z)) && all_below n (fun z => P (2 * z + 1))
  end.

(** * Properties *)

(** ** Arithmetic of the checksum *)

Lemma u8_range (b : byte) : 0 <= u8 b < 256.
Proof.
  unfold u8. pose proof (Byte.to_N_bounded b). lia.
Qed.

Lemma wrap_int32_mod (z : Z) : wrap_int32 z mod 2 ^ 32 = z mod 2 ^ 32.
Proof.
  unfold wrap_int32.
  rewrite Zminus_mod, Z.mod_mod by lia.
  rewrite <- Zminus_mod. f_equal. lia.
Qed.

Lemma fold_checksum_mod (g : byte -> Z) (data : list byte) (acc : Z) :
  fold_left (fun sum b => wrap_int32 (sum + g b)) data acc mod 2 ^ 32
  = (acc + fold_right (fun b a => g b + a) 0 data) mod 2 ^ 32.
Proof.
  revert acc. induction data as [|b data IH]; intros acc; simpl.
  - f_equal. lia.
  - rewrite IH. rewrite Zplus_mod, wrap_int32_mod, <- Zplus_mod.
    f_equal. lia.
Qed.

Lemma calcChecksum_byte_sum (data : list byte) :
  calcChecksum data = byte_sum data mod 2 ^ 32.
Proof.
  unfold calcChecksum, uint32_of_int32, wrap_uint32, int32_of_byte, byte_sum.
  rewrite fold_checksum_mod. reflexivity.
Qed.

Lemma signed_checksum_spec_sum (data : list byte) :
  signed_checksum_spec data = signed_byte_sum data mod 2 ^ 32.
Proof.
  unfold signed_checksum_spec, uint32_of_int32, wrap_uint32, signed_byte_sum.
  rewrite fold_checksum_mod. reflexivity.
Qed.

(** ** Little-endian encoding and decoding *)

Lemma lor_shiftl_add (a b n : Z) :
  0 <= n -> 0 <= a < 2 ^ n -> Z.lor a (Z.shiftl b n) = a + b * 2 ^ n.
Proof.
  intros Hn Ha.
  rewrite <- Z.shiftl_mul_pow2 by lia.
  rewrite <- Z.add_lor_land.
  enough (Z.land a (Z.shiftl b n) = 0) by lia.
  apply Z.bits_inj'. intros i Hi.
  rewrite Z.land_spec, Z.bits_0.
  destruct (Z.lt_ge_cases i n) as [Hlt|Hge].
  - rewrite Z.shiftl_spec_low by lia. apply andb_false_r.
  - destruct (Z.eq_dec a 0) as [->|Hnz].
    + rewrite Z.bits_0. reflexivity.
    + rewrite Z.bits_above_log2; [reflexivity|lia|].
      apply Z.log2_lt_pow2; try lia.
      apply Z.lt_le_trans with (2 ^ n); [lia|].
      apply Z.pow_le_mono_r; lia.
Qed.

Lemma LittleEndian_Uint16_eq (b0 b1 : byte) (rest : list byte) :
  LittleEndian_Uint16 (b0 :: b1 :: rest) = u8 b0 + u8 b1 * 2 ^ 8.
Proof.
  unfold LittleEndian_Uint16, byte_at; simpl nth.
  pose proof (u8_range b0).
  apply lor_shiftl_add; lia.
Qed.

Lemma LittleEndian_Uint32_eq (b0 b1 b2 b3 : byte) (rest : list byte) :
  LittleEndian_Uint32 (b0 :: b1 :: b2 :: b3 :: rest)
  = u8 b0 + u8 b1 * 2 ^ 8 + u8 b2 * 2 ^ 16 + u8 b3 * 2 ^ 24.
Proof.
  unfold LittleEndian_Uint32, byte_at; simpl nth.
  pose proof (u8_range b0). pose proof (u8_range b1).
  pose proof (u8_range b2). pose proof (u8_range b3).
  rewrite (lor_shiftl_add (u8 b0)) by lia.
  rewrite (lor_shiftl_add _ (u8 b2) 16) by lia.
  rewrite (lor_shiftl_add _ (u8 b3) 24) by lia.
  reflexivity.
Qed.

Lemma u8_byte_of_Z (z : Z) : u8 (byte_of_Z z) = z mod 256.
Proof.
  unfold u8, byte_of_Z.
  assert (Hr : 0 <= z mod 256 < 256) by (apply Z.mod_pos_bound; lia).
  destruct (Byte.of_N (Z.to_N (z mod 256))) as [b|] eqn:E.
  - apply Byte.to_of_N in E. rewrite E. lia.
  - apply Byte.of_N_None_iff in E. lia.
Qed.

Lemma LittleEndian_Uint32_le32 (z : Z) :
  LittleEndian_Uint32 (le32 z) = z mod 2 ^ 32.
Proof.
  unfold le32. rewrite LittleEndian_Uint32_eq, !u8_byte_of_Z.
  assert (H16 : z / 2 ^ 16 = z / 2 ^ 8 / 2 ^ 8)
    by (rewrite Z.div_div by lia; reflexivity).
  assert (H24 : z / 2 ^ 24 = z / 2 ^ 16 / 2 ^ 8)
    by (rewrite Z.div_div by lia; reflexivity).
  assert (H32 : z / 2 ^ 32 = z / 2 ^ 24 / 2 ^ 8)
    by (rewrite Z.div_div by lia; reflexivity).
  rewrite (Z.mod_eq z (2 ^ 32)), (Z.mod_eq (z / 2 ^ 24) 256),
    (Z.mod_eq (z / 2 ^ 16) 256), (Z.mod_eq (z / 2 ^ 8) 256),
    (Z.mod_eq z 256) by lia.
  change 256 with (2 ^ 8).
  rewrite H32, H24, H16.
  generalize (z / 2 ^ 8 / 2 ^ 8 / 2 ^ 8 / 2 ^ 8).
  generalize (z / 2 ^ 8 / 2 ^ 8 / 2 ^ 8).
  generalize (z / 2 ^ 8 / 2 ^ 8).
  generalize (z / 2 ^ 8). intros. lia.
Qed.

Lemma LittleEndian_Uint16_le16 (z : Z) :
  LittleEndian_Uint16 (le16 z) = z mod 2 ^ 16.
Proof.
  unfold le16. rewrite LittleEndian_Uint16_eq, !u8_byte_of_Z.
  assert (H16 : z / 2 ^ 16 = z / 2 ^ 8 / 2 ^ 8)
    by (rewrite Z.div_div by lia; reflexivity).
  rewrite (Z.mod_eq z (2 ^ 16)), (Z.mod_eq (z / 2 ^ 8) 256),
    (Z.mod_eq z 256) by lia.
  change 256 with (2 ^ 8).
  rewrite H16.
  generalize (z / 2 ^ 8 / 2 ^ 8).
  generalize (z / 2 ^ 8). intros. lia.
Qed.

Lemma int16_roundtrip (z : Z) :
  - 2 ^ 15 <= z < 2 ^ 15 ->
  int16_of_uint16 (LittleEndian_Uint16 (le16 z)) = z.
Proof.
  intros Hz. rewrite LittleEndian_Uint16_le16.
  unfold int16_of_uint16, wrap_int16.
  rewrite Zplus_mod_idemp_l.
  rewrite Z.mod_small; lia.
Qed.

Lemma decode_encode_samples (samples : list Z) :
  Forall (fun s => - 2 ^ 15 <= s < 2 ^ 15) samples ->
  decode_int16s (encode_samples samples) = samples.
Proof.
  induction 1 as [|s samples Hs _ IH]; [reflexivity|].
  unfold encode_samples in *. cbn [flat_map].
  change (le16 s ++ flat_map le16 samples)
    with (byte_of_Z s :: byte_of_Z (s / 2 ^ 8) :: flat_map le16 samples).
  cbn [decode_int16s]. rewrite IH. f_equal.
  apply (int16_roundtrip s Hs).
Qed.

Lemma length_encode_samples (samples : list Z) :
  length (encode_samples samples) = (2 * length samples)%nat.
Proof.
  unfold encode_samples.
  induction samples as [|s samples IH]; [reflexivity|].
  cbn [flat_map]. rewrite length_app, IH. simpl. lia.
Qed.

(** ** Readers *)

Lemma ReadFull_app (a rest : list byte) :
  ReadFull (Z.of_nat (length a)) (a ++ rest) = (inl a, rest).
Proof.
  unfold ReadFull, Reader_Len. rewrite length_app.
  destruct a as [|x a].
  - reflexivity.
  - cbn [length].
    destruct (Z.leb_spec (Z.of_nat (S (length a))) 0); [lia|].
    destruct (Z.eqb_spec (Z.of_nat (S (length a) + length rest)) 0); [lia|].
    destruct (Z.ltb_spec (Z.of_nat (S (length a) + length rest))
                (Z.of_nat (S (length a)))); [lia|].
    rewrite Nat2Z.id.
    change (S (length a)) with (length (x :: a)).
    rewrite firstn_app, skipn_app, Nat.sub_diag, firstn_all, skipn_all.
    cbn [firstn skipn]. rewrite app_nil_r. reflexivity.
Qed.

(** What [ReadFull] hands back was at the front of the reader. *)
Lemma ReadFull_ok (n : Z) (r r' : Reader) (bs : list byte) :
  ReadFull n r = (inl bs, r') ->
  r = bs ++ r' /\ Z.of_nat (length bs) = Z.max 0 n.
Proof.
  unfold ReadFull, Reader_Len.
  destruct (Z.leb_spec n 0).
  { intros [= <- <-]. split; [reflexivity|simpl; lia]. }
  destruct (Z.eqb_spec (Z.of_nat (length r)) 0); [discriminate|].
  destruct (Z.ltb_spec (Z.of_nat (length r)) n); [discriminate|].
  intros [= <- <-]. split.
  - symmetry. apply firstn_skipn.
  - rewrite length_firstn. lia.
Qed.

Lemma ReadFull_suffix (n : Z) (r r' : Reader) (res : list byte + io_error) :
  ReadFull n r = (res, r') -> exists pre, r = pre ++ r'.
Proof.
  unfold ReadFull.
  destruct (n <=? 0); [intros [= <- <-]; exists []; reflexivity|].
  destruct (Reader_Len r =? 0); [intros [= <- <-]; exists []; reflexivity|].
  destruct (Reader_Len r <? n); intros [= <- <-].
  - exists r. symmetry. apply app_nil_r.
  - exists (firstn (Z.to_nat n) r). symmetry. apply firstn_skipn.
Qed.

Lemma binary_Read_app {A : Type} (decode : list byte -> A) (a rest : list byte) :
  binary_Read (Z.of_nat (length a)) decode (a ++ rest) = (inl (decode a), rest).
Proof. unfold binary_Read. rewrite ReadFull_app. reflexivity. Qed.

Lemma binary_Read_ok {A : Type} (n : Z) (decode : list byte -> A)
    (r r' : Reader) (x : A) :
  binary_Read n decode r = (inl x, r') ->
  exists bs, r = bs ++ r' /\ Z.of_nat (length bs) = Z.max 0 n /\ x = decode bs.
Proof.
  unfold binary_Read. destruct (ReadFull n r) as [[bs|e] r1] eqn:E; [|discriminate].
  intros [= <- <-]. apply ReadFull_ok in E as [-> ?]. eauto.
Qed.

Lemma binary_Read_suffix {A : Type} (n : Z) (decode : list byte -> A)
    (r r' : Reader) (res : A + io_error) :
  binary_Read n decode r = (res, r') -> exists pre, r = pre ++ r'.
Proof.
  unfold binary_Read. destruct (ReadFull n r) as [[bs|e] r1] eqn:E;
    intros [= <- <-]; eapply ReadFull_suffix; eassumption.
Qed.

Lemma Reader_Read_ok (n : Z) (r r' : Reader) (bs : list byte) :
  Reader_Read n r = (inl bs, r') -> r = bs ++ r'.
Proof.
  unfold Reader_Read. destruct r; [discriminate|].
  intros [= <- <-]. symmetry. apply firstn_skipn.
Qed.

Lemma verifyChecksum_suffix (d : ByteSlice) (blockStart blockLen : Z)
    (r r' : Reader) :
  verifyChecksum d blockStart blockLen r = Ok r' -> exists pre, r = pre ++ r'.
Proof.
  unfold verifyChecksum.
  destruct (binary_Read 4 LittleEndian_Uint32 r) as [res r1] eqn:E.
  destruct (slice_expr _ _ _); [|discriminate].
  destruct (negb _); [discriminate|].
  intros [= <-]. eapply binary_Read_suffix; eassumption.
Qed.

Lemma record_block_suffix {A : Type} (size : Z) (decode : list byte -> A)
    (d : ByteSlice) (blockStart : Z) (h : BlockHeader) (r r' : Reader) (x : A) :
  record_block size decode d blockStart h r = Ok (x, r') ->
  exists pre, r = pre ++ r'.
Proof.
  unfold record_block.
  destruct (binary_Read size decode r) as [[y|e] r1] eqn:E; [|discriminate].
  destruct (verifyChecksum d blockStart (Length h) r1) as [r2|e|p] eqn:V;
    cbn [bind]; try discriminate.
  intros [= <- <-].
  apply binary_Read_suffix in E as [p1 ->].
  apply verifyChecksum_suffix in V as [p2 ->].
  exists (p1 ++ p2). apply app_assoc.
Qed.

Lemma sample_block_suffix (d : ByteSlice) (blockStart : Z) (h : BlockHeader)
    (r r' : Reader) (s : list Z) :
  sample_block d blockStart h r = Ok (s, r') -> exists pre, r = pre ++ r'.
Proof.
  unfold sample_block.
  destruct (binary_Read _ decode_int16s r) as [[y|e] r1] eqn:E; [|discriminate].
  destruct (verifyChecksum d blockStart (Length h) r1) as [r2|e|p] eqn:V;
    cbn [bind]; try discriminate.
  intros [= <- <-].
  apply binary_Read_suffix in E as [p1 ->].
  apply verifyChecksum_suffix in V as [p2 ->].
  exists (p1 ++ p2). apply app_assoc.
Qed.

Lemma discard_block_suffix (h : BlockHeader) (r r' : Reader) :
  discard_block h r = Ok r' -> exists pre, r = pre ++ r'.
Proof.
  unfold discard_block.
  destruct (Reader_Read _ r) as [[bs|e] r1] eqn:E; [|discriminate].
  intros [= <-]. apply Reader_Read_ok in E. eauto.
Qed.

Ltac block_cases :=
  unfold block;
  repeat match goal with
         | |- context [if bytes_eqb ?a ?b then _ else _] =>
             destruct (bytes_eqb a b)
         end.

Lemma block_suffix (d : ByteSlice) (blockStart : Z) (h : BlockHeader)
    (v v' : Locals) (r r' : Reader) :
  block d blockStart h v r = Ok (v', r') -> exists pre, r = pre ++ r'.
Proof.
  block_cases;
    match goal with
    | |- context [record_block ?s ?dec d blockStart h r] =>
        destruct (record_block s dec d blockStart h r) as [[x r1]|e|p] eqn:E;
        cbn [bind]; try discriminate; intros [= <- <-];
        eapply record_block_suffix; eassumption
    | |- context [sample_block d blockStart h r] =>
        destruct (sample_block d blockStart h r) as [[x r1]|e|p] eqn:E;
        cbn [bind]; try discriminate; intros [= <- <-];
        eapply sample_block_suffix; eassumption
    | |- context [discard_block h r] =>
        destruct (discard_block h r) as [r1|e|p] eqn:E;
        cbn [bind]; try discriminate; intros [= <- <-];
        eapply discard_block_suffix; eassumption
    end.
Qed.

(** ** The block loop terminates *)

(** One iteration that continues leaves at least 8 bytes fewer. *)
Lemma iteration_consumes (d : ByteSlice) (blockStart : Z) (h : BlockHeader)
    (v v' : Locals) (r r1 r' : Reader) :
  binary_Read size_BlockHeader decode_BlockHeader r = (inl h, r1) ->
  block d blockStart h v r1 = Ok (v', r') ->
  (length r' + 8 <= length r)%nat.
Proof.
  intros E B.
  apply binary_Read_ok in E as (bs & -> & Hlen & _).
  apply block_suffix in B as [pre ->].
  unfold size_BlockHeader in Hlen. rewrite !length_app. lia.
Qed.

Lemma blocks_terminates (fuel : nat) (d : ByteSlice) (v : Locals) (r : Reader) :
  (length r < fuel)%nat -> blocks fuel d v r <> None.
Proof.
  revert v r. induction fuel as [|fuel IH]; intros v r Hlt; [lia|].
  cbn [blocks].
  destruct (binary_Read size_BlockHeader decode_BlockHeader r)
    as [[h|[|]] r1] eqn:E; try discriminate.
  destruct (block d _ h v r1) as [[v' r']|e|p] eqn:B; try discriminate.
  apply IH. pose proof (iteration_consumes _ _ _ _ _ _ _ _ E B). lia.
Qed.

Lemma blocks_fuel (f1 f2 : nat) (d : ByteSlice) (v : Locals) (r : Reader) :
  (length r < f1)%nat -> (length r < f2)%nat ->
  blocks f1 d v r = blocks f2 d v r.
Proof.
  revert f2 v r. induction f1 as [|f1 IH]; intros f2 v r H1 H2; [lia|].
  destruct f2 as [|f2]; [lia|].
  cbn [blocks].
  destruct (binary_Read size_BlockHeader decode_BlockHeader r)
    as [[h|[|]] r1] eqn:E; try reflexivity.
  destruct (block d _ h v r1) as [[v' r']|e|p] eqn:B; try reflexivity.
  pose proof (iteration_consumes _ _ _ _ _ _ _ _ E B).
  apply IH; lia.
Qed.

(** ** Checksum spans are taken from the current block on *)

Lemma slice_at (d : ByteSlice) (pre r0 : list byte) (L : Z) :
  elems d = pre ++ r0 ->
  slice_expr d (len d - Reader_Len r0) (len d - Reader_Len r0 + 8 + L)
  = if (0 <=? 8 + L) && (8 + L <=? Z.of_nat (length (r0 ++ beyond d)))
    then Some (firstn (Z.to_nat (8 + L)) (r0 ++ beyond d))
    else None.
Proof.
  intros E. unfold slice_expr, len, cap, Reader_Len.
  rewrite E, !length_app.
  replace (Z.of_nat (length pre + length r0) - Z.of_nat (length r0))
    with (Z.of_nat (length pre)) by lia.
  rewrite Nat2Z.id.
  replace (Z.of_nat (length pre) + 8 + L - Z.of_nat (length pre))
    with (8 + L) by lia.
  rewrite <- app_assoc, skipn_app, skipn_all, Nat.sub_diag.
  cbn [skipn app].
  destruct (Z.leb_spec 0 (Z.of_nat (length pre))); [|lia].
  destruct (Z.leb_spec 0 (8 + L));
    destruct (Z.leb_spec (Z.of_nat (length pre)) (Z.of_nat (length pre) + 8 + L));
    try lia; cbn [andb]; [|reflexivity].
  destruct (Z.leb_spec (8 + L) (Z.of_nat (length r0 + length (beyond d))));
    destruct (Z.leb_spec (Z.of_nat (length pre) + 8 + L)
                (Z.of_nat (length pre + length r0) + Z.of_nat (length (beyond d))));
    try lia; reflexivity.
Qed.

Lemma verifyChecksum_indep (d1 d2 : ByteSlice) (pre1 pre2 r0 : list byte)
    (L : Z) (r : Reader) :
  elems d1 = pre1 ++ r0 -> elems d2 = pre2 ++ r0 -> beyond d1 = beyond d2 ->
  verifyChecksum d1 (len d1 - Reader_Len r0) L r
  = verifyChecksum d2 (len d2 - Reader_Len r0) L r.
Proof.
  intros E1 E2 B. unfold verifyChecksum.
  rewrite (slice_at d1 pre1 r0 L E1), (slice_at d2 pre2 r0 L E2), B.
  reflexivity.
Qed.

Lemma block_indep (d1 d2 : ByteSlice) (pre1 pre2 r0 : list byte)
    (h : BlockHeader) (v : Locals) (r : Reader) :
  elems d1 = pre1 ++ r0 -> elems d2 = pre2 ++ r0 -> beyond d1 = beyond d2 ->
  block d1 (len d1 - Reader_Len r0) h v r
  = block d2 (len d2 - Reader_Len r0) h v r.
Proof.
  intros E1 E2 B.
  unfold block, record_block, sample_block.
  repeat match goal with
         | |- context [verifyChecksum d1 _ ?L ?x] =>
             rewrite (verifyChecksum_indep d1 d2 pre1 pre2 r0 L x E1 E2 B)
         end.
  pose proof (fun L x => verifyChecksum_indep d1 d2 pre1 pre2 r0 L x E1 E2 B) as V.
  repeat match goal with
         | |- context [if bytes_eqb ?a ?b then _ else _] =>
             destruct (bytes_eqb a b)
         end;
    try reflexivity;
    match goal with
    | |- context [binary_Read ?n ?dec r] =>
        destruct (binary_Read n dec r) as [[x|e] r1]; [|reflexivity];
        rewrite V; reflexivity
    end.
Qed.

Lemma blocks_indep (fuel : nat) (d1 d2 : ByteSlice) (pre1 pre2 : list byte)
    (v : Locals) (r : Reader) :
  elems d1 = pre1 ++ r -> elems d2 = pre2 ++ r -> beyond d1 = beyond d2 ->
  blocks fuel d1 v r = blocks fuel d2 v r.
Proof.
  revert pre1 pre2 v r.
  induction fuel as [|fuel IH]; intros pre1 pre2 v r E1 E2 B; [reflexivity|].
  cbn [blocks].
  destruct (binary_Read size_BlockHeader decode_BlockHeader r)
    as [[h|[|]] r1] eqn:E; try reflexivity.
  rewrite (block_indep d1 d2 pre1 pre2 r h v r1 E1 E2 B).
  destruct (block d2 _ h v r1) as [[v' r']|e|p] eqn:Bk; try reflexivity.
  apply binary_Read_suffix in E as [p1 ->].
  apply block_suffix in Bk as [p2 ->].
  apply (IH (pre1 ++ p1 ++ p2) (pre2 ++ p1 ++ p2)); trivial.
  - rewrite E1, <- !app_assoc. reflexivity.
  - rewrite E2, <- !app_assoc. reflexivity.
Qed.

(** ** The file header *)

Lemma bytes_eqb_eq (a b : list byte) : bytes_eqb a b = true <-> a = b.
Proof.
  revert b. induction a as [|x a IH]; intros [|y b]; cbn [bytes_eqb];
    try (split; [reflexivity || discriminate|reflexivity || discriminate]).
  rewrite andb_true_iff, IH. split.
  - intros [Hxy ->]. apply Byte.byte_dec_bl in Hxy. congruence.
  - intros [= -> ->]. split; [apply Byte.byte_dec_lb|]; reflexivity.
Qed.

Lemma read_header_short (r : Reader) :
  (length r < 12)%nat -> fst (read_header r) = zero_AtcFileHeader.
Proof.
  intros Hlt. unfold read_header, binary_Read, ReadFull, size_AtcFileHeader, Reader_Len.
  cbn [Z.leb Z.compare].
  destruct (Z.eqb_spec (Z.of_nat (length r)) 0); [reflexivity|].
  destruct (Z.ltb_spec (Z.of_nat (length r)) 12); [reflexivity|lia].
Qed.

Lemma read_header_long (r : Reader) :
  (12 <= length r)%nat ->
  read_header r
  = ({| FileSignature := firstn 8 r;
        FileVersion := LittleEndian_Uint32 (firstn 4 (skipn 8 r)) |},
     skipn 12 r).
Proof.
  intros Hge. unfold read_header, binary_Read, ReadFull, size_AtcFileHeader, Reader_Len.
  cbn [Z.leb Z.compare].
  destruct (Z.eqb_spec (Z.of_nat (length r)) 0); [lia|].
  destruct (Z.ltb_spec (Z.of_nat (length r)) 12); [lia|].
  change (Z.to_nat 12) with 12%nat.
  unfold decode_AtcFileHeader, bytes_at.
  rewrite skipn_O, firstn_firstn, skipn_firstn_comm, firstn_firstn.
  reflexivity.
Qed.

(** [Parse] on a buffer of at least 12 bytes that starts with the
    signature is the block loop on the rest, then [build_result]. *)
Lemma Parse_after_header (d : ByteSlice) (fuel : nat) :
  (12 <= length (elems d))%nat ->
  firstn 8 (elems d) = AtcFileSignature ->
  (length (skipn 12 (elems d)) < fuel)%nat ->
  Parse d = match blocks fuel d init_Locals (skipn 12 (elems d)) with
            | Some (Ok v) => build_result v
            | Some (Err e) => Err e
            | Some (Panic p) => Panic p
            | None => Err (ErrorReadingFile EOF)
            end.
Proof.
  intros Hlen Hsig Hfuel. unfold Parse, NewReader.
  rewrite (read_header_long _ Hlen). cbn [FileSignature].
  rewrite Hsig.
  replace (bytes_eqb AtcFileSignature AtcFileSignature) with true by reflexivity.
  cbn [negb].
  rewrite (blocks_fuel (S (length (elems d))) fuel); [reflexivity| |assumption].
  rewrite length_skipn. lia.
Qed.

Lemma Parse_blocks_terminates (d : ByteSlice) : Parse_blocks d <> None.
Proof.
  unfold Parse_blocks, NewReader.
  destruct (read_header (elems d)) as [h r] eqn:E.
  apply blocks_terminates.
  unfold read_header in E.
  destruct (binary_Read _ _ _) as [[x|e] r1] eqn:R; injection E as <- <-;
    apply binary_Read_suffix in R as [pre ->]; rewrite length_app; lia.
Qed.

(** [Parse] is [build_result] after the loop, or the loop's failure, or
    the signature error: the loop never runs out of iterations. *)
Lemma Parse_cases (d : ByteSlice) :
  Parse d = Err WrongFileSignature \/
  (bytes_eqb (FileSignature (fst (read_header (elems d)))) AtcFileSignature = true /\
   ((exists v, Parse_blocks d = Some (Ok v) /\ Parse d = build_result v) \/
    (exists e, Parse_blocks d = Some (Err e) /\ Parse d = Err e) \/
    (exists p, Parse_blocks d = Some (Panic p) /\ Parse d = Panic p))).
Proof.
  pose proof (Parse_blocks_terminates d) as T.
  unfold Parse, Parse_blocks, NewReader in *.
  destruct (read_header (elems d)) as [h r]. cbn [fst].
  destruct (bytes_eqb (FileSignature h) AtcFileSignature); cbn [negb];
    [right; split; [reflexivity|]|left; reflexivity].
  destruct (blocks _ d init_Locals r) as [[v|e|p]|]; [eauto 6 ..|congruence].
Qed.

(** ** One iteration on a block as the format lays it out *)

Lemma length_le32 (z : Z) : length (le32 z) = 4%nat.
Proof. reflexivity. Qed.

Lemma read_block_header (id rest : list byte) (L : Z) :
  length id = 4%nat ->
  binary_Read size_BlockHeader decode_BlockHeader (id ++ le32 L ++ rest)
  = (inl {| BlockId := id; Length := L mod 2 ^ 32 |}, rest).
Proof.
  intros Hid.
  destruct id as [|i0 [|i1 [|i2 [|i3 [|]]]]]; try discriminate Hid.
  change ([i0; i1; i2; i3] ++ le32 L ++ rest)
    with (([i0; i1; i2; i3] ++ le32 L) ++ rest).
  change size_BlockHeader with (Z.of_nat (length ([i0; i1; i2; i3] ++ le32 L))).
  rewrite binary_Read_app. f_equal. f_equal.
  unfold decode_BlockHeader. f_equal.
  apply (LittleEndian_Uint32_le32 L).
Qed.

(** The checksum test on a block whose [8 + L] bytes are [span] and
    whose next four unread bytes are [stored]. *)
Lemma verifyChecksum_span (d : ByteSlice) (pre r0 span stored rest : list byte)
    (L : Z) :
  elems d = pre ++ r0 ->
  0 <= L ->
  8 + L <= Z.of_nat (length (r0 ++ beyond d)) ->
  firstn (Z.to_nat (8 + L)) (r0 ++ beyond d) = span ->
  length stored = 4%nat ->
  verifyChecksum d (len d - Reader_Len r0) L (stored ++ rest)
  = if LittleEndian_Uint32 stored =? byte_sum span mod 2 ^ 32
    then Ok rest
    else Err (ChecksumDoesNotMatch (LittleEndian_Uint32 stored)
                                   (byte_sum span mod 2 ^ 32)).
Proof.
  intros E HL Hcap Hspan Hst. unfold verifyChecksum.
  change 4 with (Z.of_nat 4). rewrite <- Hst, binary_Read_app.
  rewrite (slice_at d pre r0 L E).
  destruct (Z.leb_spec 0 (8 + L)); [|lia].
  destruct (Z.leb_spec (8 + L) (Z.of_nat (length (r0 ++ beyond d)))); [|lia].
  cbn [andb]. rewrite Hspan, calcChecksum_byte_sum.
  destruct (LittleEndian_Uint32 stored =? byte_sum span mod 2 ^ 32); reflexivity.
Qed.

(** A sample block: [2 * (L / 2)] payload bytes [p] are decoded, the
    next four bytes are the stored checksum. *)
Lemma sample_block_run (d : ByteSlice) (pre r0 p span stored rest : list byte)
    (id : list byte) (L : Z) :
  elems d = pre ++ r0 ->
  0 <= L ->
  Z.of_nat (length p) = 2 * (L / 2) ->
  8 + L <= Z.of_nat (length (r0 ++ beyond d)) ->
  firstn (Z.to_nat (8 + L)) (r0 ++ beyond d) = span ->
  length stored = 4%nat ->
  sample_block d (len d - Reader_Len r0) {| BlockId := id; Length := L |}
    (p ++ stored ++ rest)
  = if LittleEndian_Uint32 stored =? byte_sum span mod 2 ^ 32
    then Ok (decode_int16s p, rest)
    else Err (ChecksumDoesNotMatch (LittleEndian_Uint32 stored)
                                   (byte_sum span mod 2 ^ 32)).
Proof.
  intros E HL Hp Hcap Hspan Hst. unfold sample_block. cbn [Length].
  rewrite <- Hp, binary_Read_app.
  rewrite (verifyChecksum_span d pre r0 span stored rest L E HL Hcap Hspan Hst).
  destruct (LittleEndian_Uint32 stored =? byte_sum span mod 2 ^ 32); reflexivity.
Qed.

Lemma record_block_run {A : Type} (size : Z) (decode : list byte -> A)
    (d : ByteSlice) (pre r0 p span stored rest : list byte)
    (id : list byte) (L : Z) :
  elems d = pre ++ r0 ->
  0 <= L ->
  Z.of_nat (length p) = size ->
  8 + L <= Z.of_nat (length (r0 ++ beyond d)) ->
  firstn (Z.to_nat (8 + L)) (r0 ++ beyond d) = span ->
  length stored = 4%nat ->
  record_block size decode d (len d - Reader_Len r0)
    {| BlockId := id; Length := L |} (p ++ stored ++ rest)
  = if LittleEndian_Uint32 stored =? byte_sum span mod 2 ^ 32
    then Ok (decode p, rest)
    else Err (ChecksumDoesNotMatch (LittleEndian_Uint32 stored)
                                   (byte_sum span mod 2 ^ 32)).
Proof.
  intros E HL Hp Hcap Hspan Hst. unfold record_block. cbn [Length].
  rewrite <- Hp, binary_Read_app.
  rewrite (verifyChecksum_span d pre r0 span stored rest L E HL Hcap Hspan Hst).
  destruct (LittleEndian_Uint32 stored =? byte_sum span mod 2 ^ 32); reflexivity.
Qed.

(** The [switch] at the tags used below. *)
Lemma block_fmt (d : ByteSlice) (bs L : Z) (v : Locals) (r : Reader) :
  block d bs {| BlockId := tag "fmt "; Length := L |} v r
  = '(f, r') <- record_block size_FmtBlock decode_FmtBlock d bs
                  {| BlockId := tag "fmt "; Length := L |} r ;;
    Ok (set_fmtBlock v f, r').
Proof. reflexivity. Qed.

Lemma block_ecg (d : ByteSlice) (bs L : Z) (v : Locals) (r : Reader) :
  block d bs {| BlockId := tag "ecg "; Length := L |} v r
  = '(s, r') <- sample_block d bs {| BlockId := tag "ecg "; Length := L |} r ;;
    Ok (set_leadISamples v s, r').
Proof. reflexivity. Qed.

Lemma length_block_span (id payload : list byte) :
  length id = 4%nat ->
  length (block_span id payload) = (8 + length payload)%nat.
Proof.
  intros Hid. unfold block_span. rewrite !length_app, Hid, length_le32. lia.
Qed.

Lemma span_of_encode_block (id payload rest tail : list byte) :
  length id = 4%nat ->
  firstn (Z.to_nat (8 + Z.of_nat (length payload)))
    ((encode_block id payload ++ rest) ++ tail)
  = block_span id payload.
Proof.
  intros Hid. unfold encode_block.
  rewrite <- !app_assoc.
  replace (Z.to_nat (8 + Z.of_nat (length payload)))
    with (length (block_span id payload) + 0)%nat
    by (rewrite length_block_span by assumption; lia).
  rewrite firstn_app_2. cbn [firstn]. apply app_nil_r.
Qed.

Lemma blocks_unfold (fuel : nat) (d : ByteSlice) (v : Locals) (r : Reader) :
  blocks (S fuel) d v r
  = match binary_Read size_BlockHeader decode_BlockHeader r with
    | (inr EOF, _) => Some (Ok v)
    | (inr e, _) => Some (Err (ErrorReadingFile e))
    | (inl blockHeader, reader) =>
        match block d (len d - Reader_Len r) blockHeader v reader with
        | Ok (v, reader) => blocks fuel d v reader
        | Err e => Some (Err e)
        | Panic p => Some (Panic p)
        end
    end.
Proof. reflexivity. Qed.

(** A sample block with the tag ["ecg "], laid out with its checksum. *)
Lemma blocks_ecg_step (d : ByteSlice) (pre payload rest : list byte) (v : Locals) :
  elems d = pre ++ encode_block (tag "ecg ") payload ++ rest ->
  Z.of_nat (length payload) < 2 ^ 32 ->
  Nat.Even (length payload) ->
  blocks (S (length (encode_block (tag "ecg ") payload ++ rest))) d v
    (encode_block (tag "ecg ") payload ++ rest)
  = blocks (S (length rest)) d (set_leadISamples v (decode_int16s payload)) rest.
Proof.
  intros E Hlt [k Hk].
  set (r0 := encode_block (tag "ecg ") payload ++ rest) in *.
  rewrite (blocks_unfold (length r0)).
  assert (Hr0 : r0 = tag "ecg " ++ le32 (Z.of_nat (length payload))
                     ++ payload ++ le32 (byte_sum (block_span (tag "ecg ") payload) mod 2 ^ 32) ++ rest).
  { unfold r0, encode_block, block_span. rewrite <- !app_assoc. reflexivity. }
  rewrite Hr0 at 1. rewrite read_block_header by reflexivity.
  rewrite Z.mod_small by lia.
  rewrite block_ecg.
  erewrite (sample_block_run d pre r0 payload (block_span (tag "ecg ") payload));
    try eassumption; try lia; try reflexivity.
  - rewrite LittleEndian_Uint32_le32, Z.mod_mod, Z.eqb_refl by lia.
    cbn [bind]. apply blocks_fuel; [|lia].
    unfold r0. rewrite length_app. unfold encode_block. rewrite length_app, length_le32. lia.
  - replace (Z.of_nat (length payload)) with (Z.of_nat k * 2) by lia.
    rewrite Z.div_mul by lia. lia.
  - unfold r0. rewrite !length_app. unfold encode_block.
    rewrite length_app, length_block_span, length_le32 by reflexivity. lia.
  - unfold r0. apply span_of_encode_block. reflexivity.
Qed.

(** A format block of eight payload bytes, laid out with its checksum. *)
Lemma blocks_fmt_step (d : ByteSlice) (pre payload rest : list byte) (v : Locals) :
  elems d = pre ++ encode_block (tag "fmt ") payload ++ rest ->
  length payload = 8%nat ->
  blocks (S (length (encode_block (tag "fmt ") payload ++ rest))) d v
    (encode_block (tag "fmt ") payload ++ rest)
  = blocks (S (length rest)) d (set_fmtBlock v (decode_FmtBlock payload)) rest.
Proof.
  intros E Hlen.
  set (r0 := encode_block (tag "fmt ") payload ++ rest) in *.
  rewrite (blocks_unfold (length r0)).
  assert (Hr0 : r0 = tag "fmt " ++ le32 (Z.of_nat (length payload))
                     ++ payload ++ le32 (byte_sum (block_span (tag "fmt ") payload) mod 2 ^ 32) ++ rest).
  { unfold r0, encode_block, block_span. rewrite <- !app_assoc. reflexivity. }
  rewrite Hr0 at 1. rewrite read_block_header by reflexivity.
  rewrite Z.mod_small by lia.
  rewrite block_fmt.
  erewrite (record_block_run _ _ d pre r0 payload (block_span (tag "fmt ") payload));
    try eassumption; try lia; try reflexivity.
  - rewrite LittleEndian_Uint32_le32, Z.mod_mod, Z.eqb_refl by lia.
    cbn [bind]. apply blocks_fuel; [|lia].
    unfold r0. rewrite length_app. unfold encode_block. rewrite length_app, length_le32. lia.
  - rewrite Hlen. reflexivity.
  - unfold r0. rewrite !length_app. unfold encode_block.
    rewrite length_app, length_block_span, length_le32 by reflexivity. lia.
  - unfold r0. apply span_of_encode_block. reflexivity.
Qed.

Lemma blocks_end (fuel : nat) (d : ByteSlice) (v : Locals) :
  blocks (S fuel) d v [] = Some (Ok v).
Proof. reflexivity. Qed.

(** ** Decoded samples *)

Lemma wrap_int16_range (z : Z) : - 2 ^ 15 <= wrap_int16 z < 2 ^ 15.
Proof.
  unfold wrap_int16.
  pose proof (Z.mod_pos_bound (z + 2 ^ 15) (2 ^ 16) ltac:(lia)). lia.
Qed.

Lemma wrap_int16_mod (z : Z) : wrap_int16 z mod 2 ^ 16 = z mod 2 ^ 16.
Proof.
  unfold wrap_int16.
  rewrite Zminus_mod, Z.mod_mod by lia.
  rewrite <- Zminus_mod. f_equal. lia.
Qed.

Lemma length_decode_int16s (n : nat) (bs : list byte) :
  length bs = (2 * n)%nat -> length (decode_int16s bs) = n.
Proof.
  revert bs. induction n as [|n IH]; intros bs Hlen.
  - destruct bs; [reflexivity|discriminate].
  - destruct bs as [|b0 [|b1 bs]]; try (simpl in Hlen; lia).
    cbn [decode_int16s length]. f_equal. apply IH. simpl in Hlen. lia.
Qed.

Lemma nth_decode_int16s (bs : list byte) (i : nat) :
  (2 * i + 1 < length bs)%nat ->
  nth i (decode_int16s bs) 0
  = int16_of_uint16 (u8 (nth (2 * i) bs x00) + u8 (nth (2 * i + 1) bs x00) * 2 ^ 8).
Proof.
  revert bs. induction i as [|i IH]; intros bs Hlt.
  - destruct bs as [|b0 [|b1 bs]]; try (simpl in Hlt; lia).
    cbn [decode_int16s nth Nat.mul Nat.add].
    rewrite LittleEndian_Uint16_eq. reflexivity.
  - destruct bs as [|b0 [|b1 bs]]; try (simpl in Hlt; lia).
    cbn [decode_int16s nth].
    rewrite IH by (simpl in Hlt; lia).
    replace (2 * S i)%nat with (S (S (2 * i))) by lia.
    replace (S (S (2 * i)) + 1)%nat with (S (S (2 * i + 1))) by lia.
    reflexivity.
Qed.

(** ** A file of a format block and one ["ecg "] block *)

Lemma Parse_body (version : Z) (body sp : list byte) :
  Parse (mkSlice (encode_header version ++ body) sp)
  = match blocks (S (length body))
            (mkSlice (encode_header version ++ body) sp) init_Locals body with
    | Some (Ok v) => build_result v
    | Some (Err e) => Err e
    | Some (Panic p) => Panic p
    | None => Err (ErrorReadingFile EOF)
    end.
Proof.
  rewrite (Parse_after_header _ (S (length body))).
  - reflexivity.
  - cbn [elems]. rewrite length_app. simpl. lia.
  - reflexivity.
  - cbn [elems]. change (skipn 12 (encode_header version ++ body)) with body. lia.
Qed.

Lemma Parse_fmt_ecg (version : Z) (fmt payload sp : list byte) :
  length fmt = 8%nat ->
  Nat.Even (length payload) ->
  Z.of_nat (length payload) < 2 ^ 32 ->
  Parse (mkSlice (encode_header version ++ encode_block (tag "fmt ") fmt
                    ++ encode_block (tag "ecg ") payload) sp)
  = build_result (set_leadISamples (set_fmtBlock init_Locals (decode_FmtBlock fmt))
                    (decode_int16s payload)).
Proof.
  intros Hfmt Hev Hlt. rewrite Parse_body.
  rewrite (blocks_fmt_step _ (encode_header version)) by (trivial; reflexivity).
  rewrite <- (app_nil_r (encode_block (tag "ecg ") payload)).
  rewrite (blocks_ecg_step _ (encode_header version ++ encode_block (tag "fmt ") fmt));
    trivial.
Qed.

Lemma Parse_ecg_fmt (version : Z) (fmt payload sp : list byte) :
  length fmt = 8%nat ->
  Nat.Even (length payload) ->
  Z.of_nat (length payload) < 2 ^ 32 ->
  Parse (mkSlice (encode_header version ++ encode_block (tag "ecg ") payload
                    ++ encode_block (tag "fmt ") fmt) sp)
  = build_result (set_fmtBlock (set_leadISamples init_Locals (decode_int16s payload))
                    (decode_FmtBlock fmt)).
Proof.
  intros Hfmt Hev Hlt. rewrite Parse_body.
  rewrite (blocks_ecg_step _ (encode_header version)) by (trivial; reflexivity).
  rewrite <- (app_nil_r (encode_block (tag "fmt ") fmt)).
  rewrite (blocks_fmt_step _ (encode_header version ++ encode_block (tag "ecg ") payload));
    trivial.
Qed.

(** C4: a file of the 12-byte header, a ["fmt "] block and one ["ecg "]
    block of [N] 16-bit samples, in either order, each block followed by
    its checksum, is parsed to a document whose [leadI] holds the [N]
    samples, every one the little-endian signed 16-bit value of its two
    payload bytes, in order; the other five leads and the info block are
    absent. *)
Theorem Parse_fmt_ecg_leadI (version : Z) (fmt payload sp file : list byte) (N : nat) :
  length fmt = 8%nat ->
  length payload = (2 * N)%nat ->
  Z.of_nat (length payload) < 2 ^ 32 ->
  file = encode_header version ++ encode_block (tag "fmt ") fmt
           ++ encode_block (tag "ecg ") payload \/
  file = encode_header version ++ encode_block (tag "ecg ") payload
           ++ encode_block (tag "fmt ") fmt ->
  exists doc l,
    Parse (mkSlice file sp) = Ok doc /\
    LeadI (Samples doc) = Some l /\
    length l = N /\
    (forall i, (i < N)%nat ->
       - 2 ^ 15 <= nth i l 0 < 2 ^ 15 /\
       nth i l 0 mod 2 ^ 16
       = u8 (nth (2 * i) payload x00) + u8 (nth (2 * i + 1) payload x00) * 2 ^ 8) /\
    LeadII (Samples doc) = None /\ LeadIII (Samples doc) = None /\
    AVR (Samples doc) = None /\ AVL (Samples doc) = None /\
    AVF (Samples doc) = None /\ Info doc = None.
Proof.
  intros Hfmt Hlen Hlt Hfile.
  assert (Hev : Nat.Even (length payload)) by (exists N; exact Hlen).
  assert (Hl : forall i, (i < N)%nat ->
             - 2 ^ 15 <= nth i (decode_int16s payload) 0 < 2 ^ 15 /\
             nth i (decode_int16s payload) 0 mod 2 ^ 16
             = u8 (nth (2 * i) payload x00) + u8 (nth (2 * i + 1) payload x00) * 2 ^ 8).
  { intros i Hi. rewrite nth_decode_int16s by lia.
    unfold int16_of_uint16. split; [apply wrap_int16_range|].
    rewrite wrap_int16_mod.
    pose proof (u8_range (nth (2 * i) payload x00)).
    pose proof (u8_range (nth (2 * i + 1) payload x00)).
    apply Z.mod_small. lia. }
  destruct Hfile as [-> | ->].
  - rewrite (Parse_fmt_ecg version fmt payload sp Hfmt Hev Hlt).
    eexists. exists (decode_int16s payload).
    split; [reflexivity|]. cbn.
    repeat split; try reflexivity; try apply Hl; trivial.
    apply length_decode_int16s; assumption.
  - rewrite (Parse_ecg_fmt version fmt payload sp Hfmt Hev Hlt).
    eexists. exists (decode_int16s payload).
    split; [reflexivity|]. cbn.
    repeat split; try reflexivity; try apply Hl; trivial.
    apply length_decode_int16s; assumption.
Qed.

Lemma Parse_fmt_ecg_leadI_witness :
  exists doc l,
    Parse (mkSlice (encode_header 1
                      ++ encode_block (tag "fmt ") [x01; x2c; x01; xc8; x00; x02; x00; x00]
                      ++ encode_block (tag "ecg ") [x05; x00; xff; xff; x00; x80])
             [x00; x00]) = Ok doc /\
    LeadI (Samples doc) = Some l /\
    length l = 3%nat /\
    (forall i, (i < 3)%nat ->
       - 2 ^ 15 <= nth i l 0 < 2 ^ 15 /\
       nth i l 0 mod 2 ^ 16
       = u8 (nth (2 * i) [x05; x00; xff; xff; x00; x80] x00)
         + u8 (nth (2 * i + 1) [x05; x00; xff; xff; x00; x80] x00) * 2 ^ 8) /\
    LeadII (Samples doc) = None /\ LeadIII (Samples doc) = None /\
    AVR (Samples doc) = None /\ AVL (Samples doc) = None /\
    AVF (Samples doc) = None /\ Info doc = None.
Proof.
  apply (Parse_fmt_ecg_leadI 1 [x01; x2c; x01; xc8; x00; x02; x00; x00]
           [x05; x00; xff; xff; x00; x80] [x00; x00] _ 3).
  - reflexivity.
  - reflexivity.
  - simpl. lia.
  - left. reflexivity.
Defined.

Example Parse_fmt_ecg_example :
  Parse (mkSlice (encode_header 1
                    ++ encode_block (tag "fmt ") [x01; x2c; x01; xc8; x00; x02; x00; x00]
                    ++ encode_block (tag "ecg ") [x05; x00; xff; xff; x00; x80]) [])
  = Ok {| Frequency := float32_of_Z 300; MainsFrequency := 60;
          Gain := float32_of_Z 5000;
          Samples := {| LeadI := Some [5; -1; -32768]; LeadII := None;
                        LeadIII := None; AVR := None; AVL := None; AVF := None |};
          Info := None |}.
Proof. vm_compute. reflexivity. Qed.

(** ** The signature check *)

Lemma Parse_short_buffer (d : ByteSlice) :
  (length (elems d) < 12)%nat -> Parse d = Err WrongFileSignature.
Proof.
  intros Hlt. unfold Parse, NewReader.
  pose proof (read_header_short (elems d) Hlt) as Hz.
  destruct (read_header (elems d)) as [h r]. cbn [fst] in Hz. subst h.
  reflexivity.
Qed.

Lemma Parse_signature_mismatch (d : ByteSlice) :
  firstn 8 (elems d) <> AtcFileSignature -> Parse d = Err WrongFileSignature.
Proof.
  intros Hsig.
  destruct (Nat.lt_ge_cases (length (elems d)) 12) as [Hlt|Hge];
    [apply Parse_short_buffer; assumption|].
  unfold Parse, NewReader.
  rewrite (read_header_long _ Hge). cbn [FileSignature].
  destruct (bytes_eqb (firstn 8 (elems d)) AtcFileSignature) eqn:E;
    [|reflexivity].
  apply bytes_eqb_eq in E. contradiction.
Qed.

(** C3: a buffer that does not begin with the 8-byte magic signature, or
    that is shorter than the 12-byte file header, makes [Parse] fail
    with the format error for a wrong signature, the one error returned
    ahead of the block loop. *)
Theorem Parse_wrong_signature (d : ByteSlice) :
  firstn 8 (elems d) <> AtcFileSignature \/ (length (elems d) < 12)%nat ->
  Parse d = Err WrongFileSignature /\ is_FormatError WrongFileSignature = true.
Proof.
  intros [Hsig|Hlt]; (split; [|reflexivity]).
  - apply Parse_signature_mismatch; assumption.
  - apply Parse_short_buffer; assumption.
Qed.

Lemma Parse_wrong_signature_witness :
  (Parse (mkSlice [x41; x4c; x49; x56; x45; x00; x00; x00; x01; x00; x00] [x00])
   = Err WrongFileSignature /\ is_FormatError WrongFileSignature = true) /\
  (Parse (mkSlice (tag "alive" ++ [x00; x00; x00; x01; x00; x00; x00]
                     ++ encode_block (tag "fmt ") (repeat x01 8)) [])
   = Err WrongFileSignature /\ is_FormatError WrongFileSignature = true).
Proof.
  split.
  - apply (Parse_wrong_signature
             (mkSlice [x41; x4c; x49; x56; x45; x00; x00; x00; x01; x00; x00] [x00])).
    right. simpl. lia.
  - apply (Parse_wrong_signature
             (mkSlice (tag "alive" ++ [x00; x00; x00; x01; x00; x00; x00]
                         ++ encode_block (tag "fmt ") (repeat x01 8)) [])).
    left. vm_compute. discriminate.
Defined.

(** ** The file version *)

Lemma firstn_ext (n : nat) (l1 l2 : list byte) :
  length l1 = length l2 ->
  (forall i, (i < n)%nat -> nth i l1 x00 = nth i l2 x00) ->
  firstn n l1 = firstn n l2.
Proof.
  intros Hlen H. apply (nth_ext _ _ x00 x00).
  - rewrite !length_firstn. lia.
  - intros i Hi. rewrite !nth_firstn.
    destruct (Nat.ltb_spec i n); [apply H; assumption|reflexivity].
Qed.

Lemma skipn_ext (n : nat) (l1 l2 : list byte) :
  length l1 = length l2 ->
  (forall i, (n <= i)%nat -> nth i l1 x00 = nth i l2 x00) ->
  skipn n l1 = skipn n l2.
Proof.
  intros Hlen H. apply (nth_ext _ _ x00 x00).
  - rewrite !length_skipn. lia.
  - intros i Hi. rewrite !nth_skipn. apply H. lia.
Qed.

(** C9: two buffers of the same length that agree on every byte outside
    positions 8 to 11, the file version, give the same result of
    [Parse], document, error or panic alike. *)
Theorem Parse_version_independent (d1 d2 : ByteSlice) :
  length (elems d1) = length (elems d2) ->
  (forall i, (i < 8 \/ 12 <= i)%nat ->
     nth i (elems d1) x00 = nth i (elems d2) x00) ->
  beyond d1 = beyond d2 ->
  Parse d1 = Parse d2.
Proof.
  intros Hlen Hnth Hb.
  assert (Hsig : firstn 8 (elems d1) = firstn 8 (elems d2))
    by (apply firstn_ext; [assumption|intros; apply Hnth; lia]).
  assert (Hrest : skipn 12 (elems d1) = skipn 12 (elems d2))
    by (apply skipn_ext; [assumption|intros; apply Hnth; lia]).
  destruct (Nat.lt_ge_cases (length (elems d1)) 12) as [Hlt|Hge].
  - rewrite (Parse_short_buffer d1), (Parse_short_buffer d2) by lia.
    reflexivity.
  - unfold Parse, NewReader.
    rewrite (read_header_long (elems d1)), (read_header_long (elems d2)) by lia.
    cbn [FileSignature]. rewrite Hsig, Hlen, <- Hrest.
    destruct (negb _); [reflexivity|].
    rewrite (blocks_indep _ d1 d2 (firstn 12 (elems d1)) (firstn 12 (elems d2)));
      trivial.
    + symmetry. apply firstn_skipn.
    + rewrite Hrest. symmetry. apply firstn_skipn.
Qed.

Lemma Parse_version_independent_witness :
  Parse (mkSlice (encode_header 1
                    ++ encode_block (tag "fmt ") [x01; x2c; x01; xc8; x00; x02; x00; x00])
           [])
  = Parse (mkSlice (encode_header 4294967295
                      ++ encode_block (tag "fmt ") [x01; x2c; x01; xc8; x00; x02; x00; x00])
             []).
Proof.
  apply Parse_version_independent.
  - reflexivity.
  - intros i Hi.
    do 12 (destruct i as [|i]; [reflexivity || lia|]).
    reflexivity.
  - reflexivity.
Defined.

(** ** After the loop *)

(** Behind a complete header with the right signature, [Parse] is the
    block loop followed by [build_result]. *)
Lemma Parse_build (d : ByteSlice) :
  (12 <= length (elems d))%nat ->
  firstn 8 (elems d) = AtcFileSignature ->
  Parse d = match Parse_blocks d with
            | Some (Ok v) => build_result v
            | Some (Err e) => Err e
            | Some (Panic p) => Panic p
            | None => Err (ErrorReadingFile EOF)
            end.
Proof.
  intros Hlen Hsig. unfold Parse, Parse_blocks, NewReader.
  rewrite (read_header_long _ Hlen). cbn [FileSignature].
  rewrite Hsig. reflexivity.
Qed.

(** A document comes only out of a loop that ended normally with a
    format block decoded. *)
Lemma Parse_Ok_inv (d : ByteSlice) (doc : EcgData) :
  Parse d = Ok doc ->
  exists v f, Parse_blocks d = Some (Ok v) /\ fmtBlock v = Some f /\
              build_result v = Ok doc.
Proof.
  intros H.
  destruct (Parse_cases d) as [E|[_ [(v & Hb & E)|[(e & _ & E)|(p & _ & E)]]]];
    rewrite E in H; try discriminate.
  exists v. unfold build_result in H |- *.
  destruct (fmtBlock v) as [f|]; [|discriminate].
  exists f. auto.
Qed.

(** C2: when the block loop completes and no ["fmt "] block was decoded,
    [Parse] returns neither a document nor an error: the unguarded
    [fmtBlock.Resolution] dereferences [nil] and the run panics. *)
Theorem Parse_without_fmt_panics (d : ByteSlice) (v : Locals) :
  (12 <= length (elems d))%nat ->
  firstn 8 (elems d) = AtcFileSignature ->
  Parse_blocks d = Some (Ok v) ->
  fmtBlock v = None ->
  Parse d = Panic NilPointerDereference.
Proof.
  intros Hlen Hsig Hb Hf.
  rewrite (Parse_build d Hlen Hsig), Hb.
  unfold build_result. rewrite Hf. reflexivity.
Qed.

Lemma Parse_without_fmt_panics_witness :
  Parse (mkSlice (encode_header 1) []) = Panic NilPointerDereference.
Proof.
  apply (Parse_without_fmt_panics (mkSlice (encode_header 1) []) init_Locals).
  - simpl. lia.
  - reflexivity.
  - reflexivity.
  - reflexivity.
Defined.

(** Bit 1 of a byte is set exactly when [b & 2] is not zero: all 256
    values are checked. *)
Lemma flags_bit_1 (b : byte) :
  negb (Z.land (u8 b) 2 =? 0) = Z.testbit (u8 b) 1.
Proof. destruct b; reflexivity. Qed.

(** C5: in every document [Parse] returns, [mainsFrequency] is 60 when
    bit 1 (value 2) of the flags byte of the format block is set and 50
    when it is clear, whatever the value of the byte. *)
Theorem mainsFrequency_flags_bit (d : ByteSlice) (doc : EcgData) :
  Parse d = Ok doc ->
  exists v f,
    Parse_blocks d = Some (Ok v) /\ fmtBlock v = Some f /\
    MainsFrequency doc = (if Z.testbit (u8 (Flags f)) 1 then 60 else 50).
Proof.
  intros H. apply Parse_Ok_inv in H as (v & f & Hb & Hf & Hdoc).
  exists v, f. repeat split; trivial.
  unfold build_result in Hdoc. rewrite Hf in Hdoc.
  injection Hdoc as <-. cbn [MainsFrequency].
  rewrite flags_bit_1. reflexivity.
Qed.

(** The same on the shortest files with a format block, for each of the
    256 values of the flags byte. *)
Lemma mainsFrequency_all_flags (flags : byte) (version : Z) (sp : list byte) :
  exists doc,
    Parse (mkSlice (encode_header version
                      ++ encode_block (tag "fmt ")
                           [x01; x2c; x01; xc8; x00; flags; x00; x00]) sp) = Ok doc /\
    MainsFrequency doc = (if Z.testbit (u8 flags) 1 then 60 else 50).
Proof.
  rewrite Parse_body.
  rewrite <- (app_nil_r (encode_block _ _)).
  rewrite (blocks_fmt_step _ (encode_header version)) by reflexivity.
  rewrite blocks_end. eexists. split; [reflexivity|].
  cbn [MainsFrequency]. rewrite <- flags_bit_1. reflexivity.
Qed.

Lemma mainsFrequency_flags_bit_witness :
  exists v f,
    Parse_blocks (mkSlice (encode_header 1
                    ++ encode_block (tag "fmt ") [x01; x2c; x01; xc8; x00; xfd; x00; x00])
                    []) = Some (Ok v) /\
    fmtBlock v = Some f /\
    50 = (if Z.testbit (u8 (Flags f)) 1 then 60 else 50).
Proof.
  apply (mainsFrequency_flags_bit
           (mkSlice (encode_header 1
              ++ encode_block (tag "fmt ") [x01; x2c; x01; xc8; x00; xfd; x00; x00]) [])
           {| Frequency := float32_of_Z 300; MainsFrequency := 50;
              Gain := float32_of_Z 5000;
              Samples := {| LeadI := None; LeadII := None; LeadIII := None;
                            AVR := None; AVL := None; AVF := None |};
              Info := None |}).
  vm_compute. reflexivity.
Defined.

(** C10: a format block with resolution 0 does not make [Parse] fail.
    Behind a complete header with the right signature, whenever the
    block loop ends normally and the format block it leaves has
    resolution 0, [Parse] returns a document, and its gain is the
    binary32 quotient of 1e6 by zero, positive infinity. *)
Theorem Parse_resolution_zero (d : ByteSlice) (v : Locals) (f : FmtBlock) :
  (12 <= length (elems d))%nat ->
  firstn 8 (elems d) = AtcFileSignature ->
  Parse_blocks d = Some (Ok v) ->
  fmtBlock v = Some f ->
  Resolution f = 0 ->
  exists doc, Parse d = Ok doc /\ Gain doc = S754_infinity false.
Proof.
  intros Hlen Hsig Hb Hf Hres.
  rewrite (Parse_build d Hlen Hsig), Hb.
  unfold build_result. rewrite Hf, Hres.
  eexists. split; reflexivity.
Qed.

Lemma Parse_resolution_zero_witness :
  exists doc,
    Parse (mkSlice (encode_header 1
                      ++ encode_block (tag "fmt ") [x01; x2c; x01; x00; x00; x02; x00; x00]
                      ++ encode_block (tag "ecg ") [x05; x00; xff; xff])
             []) = Ok doc /\
    Gain doc = S754_infinity false.
Proof.
  apply (Parse_resolution_zero
           (mkSlice (encode_header 1
                       ++ encode_block (tag "fmt ") [x01; x2c; x01; x00; x00; x02; x00; x00]
                       ++ encode_block (tag "ecg ") [x05; x00; xff; xff]) [])
           (set_leadISamples
              (set_fmtBlock init_Locals
                 (decode_FmtBlock [x01; x2c; x01; x00; x00; x02; x00; x00]))
              [5; -1])
           (decode_FmtBlock [x01; x2c; x01; x00; x00; x02; x00; x00])).
  - simpl. lia.
  - reflexivity.
  - vm_compute. reflexivity.
  - reflexivity.
  - reflexivity.
Defined.

(** ** Round trip of a laid-out file *)

Lemma decode_encode_FmtBlock (f : FmtBlock) :
  0 <= Frequency_ f < 2 ^ 16 ->
  0 <= Resolution f < 2 ^ 16 ->
  0 <= Reserved f < 2 ^ 16 ->
  decode_FmtBlock (encode_FmtBlock f) = f.
Proof.
  destruct f as [fo fr re fl rs]. cbn [Frequency_ Resolution Reserved].
  intros Hfr Hre Hrs.
  unfold decode_FmtBlock, encode_FmtBlock, bytes_at, byte_at, le16.
  cbn [Format Frequency_ Resolution Flags Reserved app nth skipn firstn].
  fold (le16 fr) (le16 re) (le16 rs).
  rewrite !LittleEndian_Uint16_le16, !Z.mod_small by assumption.
  reflexivity.
Qed.

(** A file written from a format record and a list of samples is read
    back to that record's frequency, gain and mains frequency and to
    those samples. *)
Lemma Parse_fmt_ecg_roundtrip (version : Z) (f : FmtBlock) (samples : list Z)
    (sp : list byte) :
  0 <= Frequency_ f < 2 ^ 16 ->
  0 <= Resolution f < 2 ^ 16 ->
  0 <= Reserved f < 2 ^ 16 ->
  Forall (fun s => - 2 ^ 15 <= s < 2 ^ 15) samples ->
  2 * Z.of_nat (length samples) < 2 ^ 32 ->
  Parse (mkSlice (encode_header version
                    ++ encode_block (tag "fmt ") (encode_FmtBlock f)
                    ++ encode_block (tag "ecg ") (encode_samples samples)) sp)
  = Ok {| Frequency := float32_of_Z (Frequency_ f);
          MainsFrequency := if Z.testbit (u8 (Flags f)) 1 then 60 else 50;
          Gain := float32_div (float32_of_Z 1000000) (float32_of_Z (Resolution f));
          Samples := {| LeadI := Some samples; LeadII := None; LeadIII := None;
                        AVR := None; AVL := None; AVF := None |};
          Info := None |}.
Proof.
  intros Hfr Hre Hrs Hs Hlen.
  rewrite Parse_fmt_ecg.
  - rewrite decode_encode_FmtBlock, decode_encode_samples by assumption.
    unfold build_result. cbn. rewrite flags_bit_1. reflexivity.
  - reflexivity.
  - exists (length samples). apply length_encode_samples.
  - rewrite length_encode_samples. lia.
Qed.

(** The repository's test vector for [calcChecksum]. *)
Example TestCalcChecksum : calcChecksum [x41; x02; x03; x7a] = 192.
Proof. reflexivity. Qed.

(** ** The checksum of a block *)

(** The unsigned byte sum exceeds the signed one by 256 for every byte
    with its high bit set. *)
Lemma byte_sum_signed (data : list byte) :
  byte_sum data
  = signed_byte_sum data
    + 256 * Z.of_nat (length (filter (fun b => 128 <=? u8 b) data)).
Proof.
  induction data as [|b data IH]; [reflexivity|].
  cbn [byte_sum signed_byte_sum fold_right filter] in *.
  fold (byte_sum data) (signed_byte_sum data) in *. rewrite IH.
  unfold int8_of_byte.
  destruct (Z.ltb_spec (u8 b) 128); destruct (Z.leb_spec 128 (u8 b)); try lia.
  cbn [length]. lia.
Qed.

Lemma high_bytes_positive (data : list byte) :
  Exists (fun b => 128 <= u8 b) data ->
  (0 < length (filter (fun b => (128 <=? u8 b)%Z) data))%nat.
Proof.
  induction 1 as [b data Hb|b data _ IH]; cbn [filter].
  - destruct (Z.leb_spec 128 (u8 b)); [cbn [length]; lia|lia].
  - destruct (128 <=? u8 b); cbn [length]; lia.
Qed.

Lemma checksum_signed_differs (data : list byte) :
  Z.of_nat (length data) < 2 ^ 24 ->
  Exists (fun b => 128 <= u8 b) data ->
  calcChecksum data <> signed_checksum_spec data.
Proof.
  intros Hlen Hex.
  rewrite calcChecksum_byte_sum, signed_checksum_spec_sum, byte_sum_signed.
  pose proof (high_bytes_positive data Hex) as Hpos.
  pose proof (filter_length_le (fun b => 128 <=? u8 b) data) as Hle.
  set (k := Z.of_nat (length (filter (fun b => 128 <=? u8 b) data))) in *.
  intros Heq.
  assert (Hk : 0 < 256 * k < 2 ^ 32) by lia.
  assert (H0 : (256 * k) mod 2 ^ 32 = 0).
  { pose proof (Zminus_mod (signed_byte_sum data + 256 * k)
                  (signed_byte_sum data) (2 ^ 32)) as Hm.
    rewrite Heq, Z.sub_diag, Z.mod_0_l in Hm by lia.
    replace (signed_byte_sum data + 256 * k - signed_byte_sum data)
      with (256 * k) in Hm by lia.
    exact Hm. }
  rewrite Z.mod_small in H0 by lia. lia.
Qed.

(** C1, as the code has it: for every block [verifyChecksum] checks,
    the expected checksum is the sum modulo 2^32 of the bytes of the
    span [data[blockStart : blockStart + 8 + blockLen]], the 8-byte
    block header and the declared length after it, each byte taken as an
    unsigned value in [0, 255]: [int32(b)] of a [byte] is a zero
    extension.  The stored value, 0 when it could not be read, is
    compared with that sum.  A span shorter than 2^24 bytes that holds a
    byte of 0x80 or more has a checksum different from the signed-byte
    sum. *)
Theorem verifyChecksum_unsigned_sum (d : ByteSlice) (blockStart blockLen : Z)
    (reader : Reader) (span : list byte) :
  slice_expr d blockStart (blockStart + 8 + blockLen) = Some span ->
  let stored := match fst (binary_Read 4 LittleEndian_Uint32 reader) with
                | inl c => c
                | inr _ => 0
                end in
  calcChecksum span = byte_sum span mod 2 ^ 32 /\
  verifyChecksum d blockStart blockLen reader
  = (if stored =? byte_sum span mod 2 ^ 32
     then Ok (snd (binary_Read 4 LittleEndian_Uint32 reader))
     else Err (ChecksumDoesNotMatch stored (byte_sum span mod 2 ^ 32))) /\
  (Z.of_nat (length span) < 2 ^ 24 ->
   Exists (fun b => 128 <= u8 b) span ->
   calcChecksum span <> signed_checksum_spec span).
Proof.
  intros Hs stored. split; [apply calcChecksum_byte_sum|].
  split; [|apply checksum_signed_differs].
  unfold verifyChecksum. subst stored.
  destruct (binary_Read 4 LittleEndian_Uint32 reader) as [res r1].
  cbn [fst snd]. rewrite Hs, calcChecksum_byte_sum.
  destruct (_ =? _); reflexivity.
Qed.

Lemma verifyChecksum_unsigned_sum_witness :
  calcChecksum (block_span (tag "ecg ") [x80; x00]) = 465 mod 2 ^ 32 /\
  verifyChecksum (mkSlice (encode_block (tag "ecg ") [x80; x00]) []) 0 2
    [xd1; x01; x00; x00]
  = (if 465 =? 465 mod 2 ^ 32
     then Ok []
     else Err (ChecksumDoesNotMatch 465 (465 mod 2 ^ 32))) /\
  (Z.of_nat (length (block_span (tag "ecg ") [x80; x00])) < 2 ^ 24 ->
   Exists (fun b => 128 <= u8 b) (block_span (tag "ecg ") [x80; x00]) ->
   calcChecksum (block_span (tag "ecg ") [x80; x00])
   <> signed_checksum_spec (block_span (tag "ecg ") [x80; x00])).
Proof.
  apply (verifyChecksum_unsigned_sum
           (mkSlice (encode_block (tag "ecg ") [x80; x00]) []) 0 2
           [xd1; x01; x00; x00] (block_span (tag "ecg ") [x80; x00])).
  reflexivity.
Defined.

(** C1 as the specification words it fails: on the block ["ecg "] with
    the payload [0x80 0x00] the validator expects 465, the unsigned sum,
    where the signed-byte sum is 209; the block that carries 209 is
    rejected. *)
Lemma verifyChecksum_signed_counterexample :
  calcChecksum (block_span (tag "ecg ") [x80; x00]) = 465 /\
  signed_checksum_spec (block_span (tag "ecg ") [x80; x00]) = 209 /\
  verifyChecksum
    (mkSlice (block_span (tag "ecg ") [x80; x00] ++ le32 209) []) 0 2 (le32 209)
  = Err (ChecksumDoesNotMatch 209 465).
Proof. vm_compute. repeat split; reflexivity. Qed.

(** ** Sample blocks of odd declared length *)

Lemma block_sample (id : list byte) (set : Locals -> list Z -> Locals)
    (d : ByteSlice) (bs L : Z) (v : Locals) (r : Reader) :
  In (id, set) sample_tags ->
  block d bs {| BlockId := id; Length := L |} v r
  = '(s, r') <- sample_block d bs {| BlockId := id; Length := L |} r ;;
    Ok (set v s, r').
Proof.
  unfold sample_tags. cbn [In].
  intros [H|[H|[H|[H|[H|[H|[]]]]]]]; injection H as <- <-; reflexivity.
Qed.

Lemma sample_tag_length (id : list byte) (set : Locals -> list Z -> Locals) :
  In (id, set) sample_tags -> length id = 4%nat.
Proof.
  unfold sample_tags. cbn [In].
  intros [H|[H|[H|[H|[H|[H|[]]]]]]]; injection H as <- _; reflexivity.
Qed.

(** C6, as the code has it: an odd declared length is not refused.  For
    a sample block of odd declared length [L], the [L - 1] bytes [p]
    after the block header are decoded into [(L - 1) / 2] samples and
    the four bytes [stored] that follow, the first of which is the last
    declared payload byte, are taken as the stored checksum.  The
    iteration fails with a checksum error when [stored] differs from the
    byte sum over the header and the [L] declared bytes, and otherwise
    assigns the samples and goes on with the next block. *)
Theorem blocks_sample_odd_length (d : ByteSlice) (id : list byte)
    (set : Locals -> list Z -> Locals) (pre p stored rest : list byte)
    (L : Z) (v : Locals) :
  In (id, set) sample_tags ->
  elems d = pre ++ id ++ le32 L ++ p ++ stored ++ rest ->
  0 <= L < 2 ^ 32 ->
  Z.odd L = true ->
  Z.of_nat (length p) = L - 1 ->
  length stored = 4%nat ->
  blocks (S (length (id ++ le32 L ++ p ++ stored ++ rest))) d v
    (id ++ le32 L ++ p ++ stored ++ rest)
  = if LittleEndian_Uint32 stored
       =? byte_sum (id ++ le32 L ++ p ++ firstn 1 stored) mod 2 ^ 32
    then blocks (S (length rest)) d (set v (decode_int16s p)) rest
    else Some (Err (ChecksumDoesNotMatch (LittleEndian_Uint32 stored)
                      (byte_sum (id ++ le32 L ++ p ++ firstn 1 stored) mod 2 ^ 32))).
Proof.
  intros Hin E HL Hodd Hp Hst.
  pose proof (sample_tag_length id set Hin) as Hid.
  set (r0 := id ++ le32 L ++ p ++ stored ++ rest) in *.
  rewrite (blocks_unfold (length r0)).
  unfold r0 at 1. rewrite read_block_header by assumption.
  rewrite Z.mod_small by lia.
  rewrite (block_sample id set) by assumption.
  rewrite (sample_block_run d pre r0 p (id ++ le32 L ++ p ++ firstn 1 stored)
             stored rest id L); trivial; try lia.
  - destruct (LittleEndian_Uint32 stored =? _); [|reflexivity].
    cbn [bind]. apply blocks_fuel; [|lia].
    unfold r0. rewrite !length_app. lia.
  - pose proof (Zmod_odd L) as Hm. rewrite Hodd in Hm.
    pose proof (Z.div_mod L 2 ltac:(lia)). lia.
  - unfold r0. rewrite !length_app, length_le32, Hid, Hst. lia.
  - unfold r0.
    destruct stored as [|c0 [|c1 [|c2 [|c3 [|]]]]]; try discriminate Hst.
    cbn [firstn].
    replace ((id ++ le32 L ++ p ++ [c0; c1; c2; c3] ++ rest) ++ beyond d)
      with ((id ++ le32 L ++ p ++ [c0]) ++ [c1; c2; c3] ++ rest ++ beyond d)
      by (rewrite <- !app_assoc; reflexivity).
    replace (Z.to_nat (8 + L))
      with (length (id ++ le32 L ++ p ++ [c0]) + 0)%nat
      by (rewrite !length_app, length_le32, Hid; cbn [length]; lia).
    rewrite firstn_app_2. cbn [firstn]. apply app_nil_r.
Qed.

Lemma blocks_sample_odd_length_witness :
  blocks
    (S (length (tag "ecg2" ++ le32 3 ++ [x9c; x00] ++ [x00; x02; x00; x00] ++ [])))
    (mkSlice (encode_header 1
                ++ encode_block (tag "fmt ") [x01; x2c; x01; xc8; x00; x02; x00; x00]
                ++ tag "ecg2" ++ le32 3 ++ [x9c; x00] ++ [x00; x02; x00; x00] ++ [])
       [])
    init_Locals
    (tag "ecg2" ++ le32 3 ++ [x9c; x00] ++ [x00; x02; x00; x00] ++ [])
  = Some (Ok (set_leadIISamples init_Locals [156])).
Proof.
  apply (blocks_sample_odd_length
           (mkSlice (encode_header 1
                       ++ encode_block (tag "fmt ") [x01; x2c; x01; xc8; x00; x02; x00; x00]
                       ++ tag "ecg2" ++ le32 3 ++ [x9c; x00] ++ [x00; x02; x00; x00] ++ [])
              [])
           (tag "ecg2") set_leadIISamples
           (encode_header 1
              ++ encode_block (tag "fmt ") [x01; x2c; x01; xc8; x00; x02; x00; x00])
           [x9c; x00] [x00; x02; x00; x00] [] 3 init_Locals).
  - simpl. tauto.
  - reflexivity.
  - lia.
  - reflexivity.
  - reflexivity.
  - reflexivity.
Defined.

(** C6 as the specification words it fails: a file whose ["ecg2"] block
    declares the odd length 3 is parsed without error when the four
    bytes after the first two payload bytes hold the byte sum of the
    block; and where such a file does fail, with three payload bytes and
    the checksum after them, the error is a checksum error, not a format
    error. *)
Lemma Parse_odd_length_counterexample :
  Parse (mkSlice (encode_header 1
                    ++ encode_block (tag "fmt ") [x01; x2c; x01; xc8; x00; x02; x00; x00]
                    ++ tag "ecg2" ++ le32 3 ++ [x9c; x00] ++ [x00; x02; x00; x00])
           [])
  = Ok {| Frequency := float32_of_Z 300; MainsFrequency := 60;
          Gain := float32_of_Z 5000;
          Samples := {| LeadI := None; LeadII := Some [156]; LeadIII := None;
                        AVR := None; AVL := None; AVF := None |};
          Info := None |} /\
  Parse (mkSlice (encode_header 1
                    ++ encode_block (tag "fmt ") [x01; x2c; x01; xc8; x00; x02; x00; x00]
                    ++ encode_block (tag "ecg2") [x01; x00; x02])
           [])
  = Err (ChecksumDoesNotMatch 91906 359) /\
  is_ChecksumError (ChecksumDoesNotMatch 91906 359) = true /\
  is_FormatError (ChecksumDoesNotMatch 91906 359) = false.
Proof. vm_compute. repeat split; reflexivity. Qed.

(** ** Blocks with an unknown tag *)

Lemma block_default (id : list byte) (d : ByteSlice) (bs L : Z) (v : Locals)
    (r : Reader) :
  known_tag id = false ->
  block d bs {| BlockId := id; Length := L |} v r
  = reader <- discard_block {| BlockId := id; Length := L |} r ;; Ok (v, reader).
Proof.
  unfold known_tag. cbn [existsb]. intros H.
  repeat (apply orb_false_elim in H as [? H]).
  unfold block. cbn [BlockId].
  repeat match goal with
         | E : bytes_eqb id ?t = false |- _ => rewrite E; clear E
         end.
  reflexivity.
Qed.

Lemma Reader_Read_app (a rest : list byte) :
  a <> [] ->
  Reader_Read (Z.of_nat (length a)) (a ++ rest) = (inl a, rest).
Proof.
  intros Hne. unfold Reader_Read, Reader_Len.
  destruct (a ++ rest) as [|x l] eqn:E.
  - apply app_eq_nil in E as [-> _]. contradiction.
  - rewrite <- E. rewrite Z.min_l by (rewrite length_app; lia).
    rewrite Nat2Z.id, firstn_app, skipn_app, Nat.sub_diag, firstn_all, skipn_all.
    cbn [firstn skipn app]. rewrite app_nil_r. reflexivity.
Qed.

Lemma Reader_Read_short (n : Z) (r : Reader) :
  r <> [] -> Reader_Len r <= n -> Reader_Read n r = (inl r, []).
Proof.
  intros Hne Hle. unfold Reader_Read. destruct r as [|x l] eqn:E; [contradiction|].
  rewrite <- E in *. rewrite Z.min_r by assumption.
  unfold Reader_Len. rewrite Nat2Z.id, firstn_all, skipn_all. reflexivity.
Qed.

(** With [Length + 4] bytes or more behind the block header, exactly
    that many are skipped. *)
Lemma blocks_unknown_step (d : ByteSlice) (id skipped rest : list byte) (L : Z)
    (v : Locals) :
  length id = 4%nat ->
  known_tag id = false ->
  0 <= L -> L + 4 < 2 ^ 32 ->
  Z.of_nat (length skipped) = L + 4 ->
  blocks (S (length (id ++ le32 L ++ skipped ++ rest))) d v
    (id ++ le32 L ++ skipped ++ rest)
  = blocks (S (length rest)) d v rest.
Proof.
  intros Hid Hk HL Hw Hs.
  rewrite blocks_unfold, read_block_header by assumption.
  rewrite Z.mod_small by lia.
  rewrite block_default by assumption.
  unfold discard_block. cbn [Length]. unfold wrap_uint32, ChecksumLength.
  rewrite Z.mod_small by lia.
  rewrite <- Hs, Reader_Read_app
    by (intros ->; cbn [length] in Hs; lia).
  cbn [bind]. apply blocks_fuel; [|lia].
  rewrite !length_app. lia.
Qed.

(** With fewer bytes than that, but at least one, [reader.Read] takes
    what is there and reports no error, and the loop ends at the next
    header read as on a clean end of input. *)
Lemma blocks_unknown_short (d : ByteSlice) (id rem : list byte) (L : Z)
    (v : Locals) :
  length id = 4%nat ->
  known_tag id = false ->
  0 <= L -> L + 4 < 2 ^ 32 ->
  rem <> [] ->
  Z.of_nat (length rem) < L + 4 ->
  blocks (S (length (id ++ le32 L ++ rem))) d v (id ++ le32 L ++ rem)
  = Some (Ok v).
Proof.
  intros Hid Hk HL Hw Hne Hs.
  rewrite blocks_unfold, read_block_header by assumption.
  rewrite Z.mod_small by lia.
  rewrite block_default by assumption.
  unfold discard_block. cbn [Length]. unfold wrap_uint32, ChecksumLength.
  rewrite Z.mod_small by lia.
  rewrite Reader_Read_short by (trivial; unfold Reader_Len; lia).
  cbn [bind].
  rewrite (blocks_fuel _ 1); [reflexivity| |cbn [length]; lia].
  rewrite !length_app, Hid. cbn [length]. lia.
Qed.

(** C7: the short read in the [default] case goes unnoticed.  After a
    format block, an unknown block that declares [L] payload bytes and
    is followed by at least one byte but fewer than [L + 4] does not
    make [Parse] fail: the rest of the input is swallowed and a document
    is returned. *)
Theorem Parse_unknown_short_read (version : Z) (fmt id rem sp : list byte) (L : Z) :
  length fmt = 8%nat ->
  length id = 4%nat ->
  known_tag id = false ->
  0 <= L -> L + 4 < 2 ^ 32 ->
  rem <> [] ->
  Z.of_nat (length rem) < L + 4 ->
  exists doc,
    Parse (mkSlice (encode_header version ++ encode_block (tag "fmt ") fmt
                      ++ id ++ le32 L ++ rem) sp) = Ok doc /\
    build_result (set_fmtBlock init_Locals (decode_FmtBlock fmt)) = Ok doc.
Proof.
  intros Hfmt Hid Hk HL Hw Hne Hs.
  rewrite Parse_body.
  rewrite (blocks_fmt_step _ (encode_header version)) by (trivial; reflexivity).
  rewrite blocks_unknown_short by assumption.
  eexists. split; reflexivity.
Qed.

Lemma Parse_unknown_short_read_witness :
  exists doc,
    Parse (mkSlice (encode_header 1
                      ++ encode_block (tag "fmt ") [x01; x2c; x01; xc8; x00; x02; x00; x00]
                      ++ tag "junk" ++ le32 100 ++ [x00]) []) = Ok doc /\
    build_result
      (set_fmtBlock init_Locals
         (decode_FmtBlock [x01; x2c; x01; xc8; x00; x02; x00; x00])) = Ok doc.
Proof.
  apply (Parse_unknown_short_read 1 [x01; x2c; x01; xc8; x00; x02; x00; x00]
           (tag "junk") [x00] [] 100).
  - reflexivity.
  - reflexivity.
  - reflexivity.
  - lia.
  - lia.
  - discriminate.
  - simpl. lia.
Defined.

(** The same input evaluated, and the input with no byte at all behind
    the unknown block header, the one short read that is reported. *)
Example Parse_unknown_short_read_example :
  Parse (mkSlice (encode_header 1
                    ++ encode_block (tag "fmt ") [x01; x2c; x01; xc8; x00; x02; x00; x00]
                    ++ tag "junk" ++ le32 100 ++ [x00]) [])
  = Ok {| Frequency := float32_of_Z 300; MainsFrequency := 60;
          Gain := float32_of_Z 5000;
          Samples := {| LeadI := None; LeadII := None; LeadIII := None;
                        AVR := None; AVL := None; AVF := None |};
          Info := None |} /\
  Parse (mkSlice (encode_header 1
                    ++ encode_block (tag "fmt ") [x01; x2c; x01; xc8; x00; x02; x00; x00]
                    ++ tag "junk" ++ le32 100) [])
  = Err (ErrorReadingInput EOF).
Proof. vm_compute. split; reflexivity. Qed.

(** ** Fields of the serialized document *)

Lemma keys_field_omitempty (key : string) (s : option (list Z)) :
  map fst (field_omitempty key s) = if nonempty s then [key] else [].
Proof. destruct s as [[|x l]|]; reflexivity. Qed.

Lemma keys_marshal_EcgSamples (s : EcgSamples) :
  keys (marshal_EcgSamples s)
  = ["leadI"%string]
      ++ (if nonempty (LeadII s) then ["leadII"%string] else [])
      ++ (if nonempty (LeadIII s) then ["leadIII"%string] else [])
      ++ (if nonempty (AVR s) then ["aVR"%string] else [])
      ++ (if nonempty (AVL s) then ["aVL"%string] else [])
      ++ (if nonempty (AVF s) then ["aVF"%string] else []).
Proof.
  unfold marshal_EcgSamples, keys.
  rewrite !map_app, !keys_field_omitempty. reflexivity.
Qed.

Lemma marshal_int16s_null (s : option (list Z)) :
  marshal_int16s s = JNull <-> s = None.
Proof. destruct s; simpl; split; congruence. Qed.

Lemma marshal_InfoBlock_null (i : option InfoBlock) :
  marshal_InfoBlock i = JNull <-> i = None.
Proof. destruct i; simpl; split; congruence. Qed.

Lemma Marshal_fields (doc : EcgData) (j : json) :
  Marshal doc = Ok j ->
  keys j = ["frequency"; "mainsFrequency"; "gain"; "samples"; "Info"]%string /\
  field "Info" j = Some (marshal_InfoBlock (Info doc)) /\
  field "samples" j = Some (marshal_EcgSamples (Samples doc)).
Proof.
  unfold Marshal.
  destruct (marshal_float32 (Frequency doc)) as [f| |]; cbn [bind]; try discriminate.
  destruct (marshal_float32 (Gain doc)) as [g| |]; cbn [bind]; try discriminate.
  intros [= <-]. repeat split.
Qed.

(** C8, as the struct tags have it: the object [Convert] produces always
    has the keys [frequency], [mainsFrequency], [gain], [samples] and
    [Info]; [Info] is [null] exactly when the document has no info
    block; [samples] always has the key [leadI], which is [null] exactly
    when lead I is absent; and each of [leadII], [leadIII], [aVR], [aVL]
    and [aVF] is a key exactly when its array is there and not empty. *)
Theorem Convert_fields (d : ByteSlice) (j : json) :
  Convert d = Ok j ->
  exists doc samples,
    Parse d = Ok doc /\
    keys j = ["frequency"; "mainsFrequency"; "gain"; "samples"; "Info"]%string /\
    (exists info, field "Info" j = Some info /\ (info = JNull <-> Info doc = None)) /\
    field "samples" j = Some samples /\
    (exists leadI, field "leadI" samples = Some leadI /\
                   (leadI = JNull <-> LeadI (Samples doc) = None)) /\
    keys samples
    = ["leadI"%string]
        ++ (if nonempty (LeadII (Samples doc)) then ["leadII"%string] else [])
        ++ (if nonempty (LeadIII (Samples doc)) then ["leadIII"%string] else [])
        ++ (if nonempty (AVR (Samples doc)) then ["aVR"%string] else [])
        ++ (if nonempty (AVL (Samples doc)) then ["aVL"%string] else [])
        ++ (if nonempty (AVF (Samples doc)) then ["aVF"%string] else []).
Proof.
  unfold Convert. destruct (Parse d) as [doc| |]; cbn [bind]; try discriminate.
  intros H. apply Marshal_fields in H as (Hk & Hi & Hs).
  exists doc, (marshal_EcgSamples (Samples doc)).
  repeat split; trivial.
  - exists (marshal_InfoBlock (Info doc)). split; [assumption|].
    apply marshal_InfoBlock_null.
  - exists (marshal_int16s (LeadI (Samples doc))). split; [reflexivity|].
    apply marshal_int16s_null.
  - apply keys_marshal_EcgSamples.
Qed.

Lemma Convert_fields_witness :
  exists doc samples,
    Parse (mkSlice (encode_header 1
                      ++ encode_block (tag "fmt ") [x01; x2c; x01; xc8; x00; x02; x00; x00]
                      ++ encode_block (tag "ecg ") [x05; x00; xff; xff]
                      ++ encode_block (tag "ecg2") [x07; x00]
                      ++ encode_block (tag "ecg3") []) []) = Ok doc /\
    keys (JObject
            [("frequency"%string, JFloat (float32_of_Z 300));
             ("mainsFrequency"%string, JInt 60);
             ("gain"%string, JFloat (float32_of_Z 5000));
             ("samples"%string,
              JObject [("leadI"%string, JArray [JInt 5; JInt (-1)]);
                       ("leadII"%string, JArray [JInt 7])]);
             ("Info"%string, JNull)])
    = ["frequency"; "mainsFrequency"; "gain"; "samples"; "Info"]%string /\
    (exists info,
       field "Info"
         (JObject
            [("frequency"%string, JFloat (float32_of_Z 300));
             ("mainsFrequency"%string, JInt 60);
             ("gain"%string, JFloat (float32_of_Z 5000));
             ("samples"%string,
              JObject [("leadI"%string, JArray [JInt 5; JInt (-1)]);
                       ("leadII"%string, JArray [JInt 7])]);
             ("Info"%string, JNull)]) = Some info /\
       (info = JNull <-> Info doc = None)) /\
    field "samples"
      (JObject
         [("frequency"%string, JFloat (float32_of_Z 300));
          ("mainsFrequency"%string, JInt 60);
          ("gain"%string, JFloat (float32_of_Z 5000));
          ("samples"%string,
           JObject [("leadI"%string, JArray [JInt 5; JInt (-1)]);
                    ("leadII"%string, JArray [JInt 7])]);
          ("Info"%string, JNull)]) = Some samples /\
    (exists leadI, field "leadI" samples = Some leadI /\
                   (leadI = JNull <-> LeadI (Samples doc) = None)) /\
    keys samples
    = ["leadI"%string]
        ++ (if nonempty (LeadII (Samples doc)) then ["leadII"%string] else [])
        ++ (if nonempty (LeadIII (Samples doc)) then ["leadIII"%string] else [])
        ++ (if nonempty (AVR (Samples doc)) then ["aVR"%string] else [])
        ++ (if nonempty (AVL (Samples doc)) then ["aVL"%string] else [])
        ++ (if nonempty (AVF (Samples doc)) then ["aVF"%string] else []).
Proof.
  apply (Convert_fields
           (mkSlice (encode_header 1
                       ++ encode_block (tag "fmt ") [x01; x2c; x01; xc8; x00; x02; x00; x00]
                       ++ encode_block (tag "ecg ") [x05; x00; xff; xff]
                       ++ encode_block (tag "ecg2") [x07; x00]
                       ++ encode_block (tag "ecg3") []) [])).
  vm_compute. reflexivity.
Defined.

(** C8 as the specification words it fails in both directions.  For a
    file of a header and a format block only, lead I and the info block
    are absent from the document and yet [leadI] and [Info] are keys of
    the output, with the value [null].  For a file with an ["ecg2"]
    block of no samples, lead II is present in the document, as an empty
    array, and [leadII] is not a key of the output. *)
Lemma Convert_fields_counterexample :
  (exists doc,
     Parse (mkSlice (encode_header 1
              ++ encode_block (tag "fmt ") [x01; x2c; x01; xc8; x00; x02; x00; x00]) [])
     = Ok doc /\
     LeadI (Samples doc) = None /\ Info doc = None) /\
  Convert (mkSlice (encode_header 1
             ++ encode_block (tag "fmt ") [x01; x2c; x01; xc8; x00; x02; x00; x00]) [])
  = Ok (JObject
          [("frequency"%string, JFloat (float32_of_Z 300));
           ("mainsFrequency"%string, JInt 60);
           ("gain"%string, JFloat (float32_of_Z 5000));
           ("samples"%string, JObject [("leadI"%string, JNull)]);
           ("Info"%string, JNull)]) /\
  (exists doc,
     Parse (mkSlice (encode_header 1
              ++ encode_block (tag "fmt ") [x01; x2c; x01; xc8; x00; x02; x00; x00]
              ++ encode_block (tag "ecg2") []) [])
     = Ok doc /\
     LeadII (Samples doc) = Some []) /\
  Convert (mkSlice (encode_header 1
             ++ encode_block (tag "fmt ") [x01; x2c; x01; xc8; x00; x02; x00; x00]
             ++ encode_block (tag "ecg2") []) [])
  = Ok (JObject
          [("frequency"%string, JFloat (float32_of_Z 300));
           ("mainsFrequency"%string, JInt 60);
           ("gain"%string, JFloat (float32_of_Z 5000));
           ("samples"%string, JObject [("leadI"%string, JNull)]);
           ("Info"%string, JNull)]).
Proof.
  repeat split; try (eexists; split; [vm_compute; reflexivity|]);
    try (vm_compute; repeat split; reflexivity).
Qed.

(** A resolution of 0 gets through [Parse] and stops [Convert]: the
    encoder refuses the infinite gain. *)
Example Convert_resolution_zero :
  Convert (mkSlice (encode_header 1
             ++ encode_block (tag "fmt ") [x01; x2c; x01; x00; x00; x02; x00; x00]) [])
  = Err JsonUnsupportedValue.
Proof. vm_compute. reflexivity. Qed.

(** * Further properties of the code *)

(** ** [calcChecksum] as a sum *)

Lemma byte_sum_app (a b : list byte) :
  byte_sum (a ++ b) = byte_sum a + byte_sum b.
Proof.
  induction a as [|x a IH]; [reflexivity|].
  cbn [app]. unfold byte_sum in *. cbn [fold_right]. rewrite IH. lia.
Qed.

Lemma byte_sum_cons (x : byte) (a : list byte) :
  byte_sum (x :: a) = u8 x + byte_sum a.
Proof. reflexivity. Qed.

Lemma byte_sum_Permutation (a b : list byte) :
  Permutation a b -> byte_sum a = byte_sum b.
Proof.
  induction 1 as [|x a b _ IH|x y a|a b c _ IH1 _ IH2].
  - reflexivity.
  - rewrite !byte_sum_cons, IH. reflexivity.
  - rewrite !byte_sum_cons. lia.
  - congruence.
Qed.

Lemma byte_sum_bounds (a : list byte) :
  0 <= byte_sum a <= 255 * Z.of_nat (length a).
Proof.
  induction a as [|x a IH]; [simpl; lia|].
  rewrite byte_sum_cons. cbn [length]. pose proof (u8_range x). lia.
Qed.

Lemma u8_inj (x y : byte) : u8 x = u8 y -> x = y.
Proof.
  unfold u8. intros H. apply N2Z.inj in H.
  pose proof (Byte.of_to_N x) as Hx. pose proof (Byte.of_to_N y) as Hy.
  rewrite H in Hx. congruence.
Qed.

Lemma mod_eq_small_diff (a b : Z) :
  a mod 2 ^ 32 = b mod 2 ^ 32 -> - 2 ^ 32 < a - b < 2 ^ 32 -> a = b.
Proof.
  intros Hm Hd.
  pose proof (Z.div_mod a (2 ^ 32) ltac:(lia)).
  pose proof (Z.div_mod b (2 ^ 32) ltac:(lia)).
  assert (a - b = 2 ^ 32 * (a / 2 ^ 32 - b / 2 ^ 32)) by lia.
  assert (a / 2 ^ 32 - b / 2 ^ 32 = 0) by nia.
  lia.
Qed.

Lemma byte_sum_tamper (a b : list byte) (x y : byte) :
  x <> y ->
  byte_sum (a ++ x :: b) mod 2 ^ 32 <> byte_sum (a ++ y :: b) mod 2 ^ 32.
Proof.
  intros Hxy Heq. apply Hxy, u8_inj.
  rewrite !byte_sum_app, !byte_sum_cons in Heq.
  pose proof (u8_range x). pose proof (u8_range y).
  apply mod_eq_small_diff in Heq; lia.
Qed.

(** X1: [calcChecksum] does not see the order of the bytes: two spans
    that are permutations of one another have the same checksum. *)
Theorem calcChecksum_Permutation (a b : list byte) :
  Permutation a b -> calcChecksum a = calcChecksum b.
Proof.
  intros H. rewrite !calcChecksum_byte_sum, (byte_sum_Permutation a b H).
  reflexivity.
Qed.

Lemma calcChecksum_Permutation_witness :
  calcChecksum [x41; x02; x03; x7a] = calcChecksum [x7a; x03; x41; x02].
Proof.
  apply calcChecksum_Permutation.
  apply (perm_trans (l' := [x02; x03; x7a; x41])).
  - apply (Permutation_cons_append [x02; x03; x7a] x41).
  - apply (perm_trans (l' := [x03; x7a; x41; x02])).
    + apply (Permutation_cons_append [x03; x7a; x41] x02).
    + apply perm_swap.
Defined.

(** X2: the checksum is a value of [uint32], and the checksum of two
    spans put end to end is the sum of their checksums modulo 2^32. *)
Theorem calcChecksum_app (a b : list byte) :
  0 <= calcChecksum a < 2 ^ 32 /\
  calcChecksum (a ++ b) = (calcChecksum a + calcChecksum b) mod 2 ^ 32.
Proof.
  rewrite !calcChecksum_byte_sum, byte_sum_app. split.
  - apply Z.mod_pos_bound. lia.
  - apply Zplus_mod.
Qed.

(** X3: changing one byte of a span always changes its checksum. *)
Theorem calcChecksum_tamper (a b : list byte) (x y : byte) :
  x <> y -> calcChecksum (a ++ x :: b) <> calcChecksum (a ++ y :: b).
Proof.
  intros Hxy. rewrite !calcChecksum_byte_sum. apply byte_sum_tamper, Hxy.
Qed.

Lemma calcChecksum_tamper_witness :
  calcChecksum ([x41; x02] ++ x03 :: [x7a])
  <> calcChecksum ([x41; x02] ++ x83 :: [x7a]).
Proof.
  apply (calcChecksum_tamper [x41; x02] [x7a] x03 x83).
  discriminate.
Defined.

(** ** Positions the loop reaches *)

Lemma loop_reaches_suffix (d : ByteSlice) (v : Locals) (r : Reader) :
  loop_reaches d v r -> exists pre, elems d = pre ++ r.
Proof.
  induction 1 as [|v r h r1 v' r' _ [pre E] Hh Hb].
  - exists (firstn 12 (elems d)). symmetry. apply firstn_skipn.
  - apply binary_Read_suffix in Hh as [p1 ->].
    apply block_suffix in Hb as [p2 ->].
    exists (pre ++ p1 ++ p2). rewrite E, <- !app_assoc. reflexivity.
Qed.

(** From a position the loop reaches, [Parse] is the rest of the loop. *)
Lemma Parse_at (d : ByteSlice) (v : Locals) (r : Reader) :
  valid_header d -> loop_reaches d v r ->
  Parse d = loop_result (blocks (S (length r)) d v r).
Proof.
  intros [Hlen Hsig]. induction 1 as [|v r h r1 v' r' _ IH Hh Hb].
  - apply Parse_after_header; trivial. lia.
  - rewrite IH, blocks_unfold, Hh, Hb. f_equal.
    pose proof (iteration_consumes _ _ _ _ _ _ _ _ Hh Hb).
    apply blocks_fuel; lia.
Qed.

Lemma loop_reaches_body (version : Z) (body sp : list byte) :
  loop_reaches (mkSlice (encode_header version ++ body) sp) init_Locals body.
Proof. apply (reaches_first (mkSlice (encode_header version ++ body) sp)). Qed.

Lemma valid_header_encode (version : Z) (body sp : list byte) :
  valid_header (mkSlice (encode_header version ++ body) sp).
Proof.
  split; [|reflexivity]. cbn [elems]. rewrite length_app. simpl. lia.
Qed.

(** ** Input that ends inside a block *)

Lemma ReadFull_short (n : Z) (r : Reader) :
  Reader_Len r < n ->
  ReadFull n r = (inr (match r with [] => EOF | _ :: _ => ErrUnexpectedEOF end), []).
Proof.
  unfold ReadFull, Reader_Len. intros Hlt.
  destruct (Z.leb_spec n 0); [lia|].
  destruct r as [|x r].
  - reflexivity.
  - destruct (Z.eqb_spec (Z.of_nat (length (x :: r))) 0); [cbn [length] in *; lia|].
    destruct (Z.ltb_spec (Z.of_nat (length (x :: r))) n); [reflexivity|lia].
Qed.

Lemma binary_Read_short {A : Type} (n : Z) (decode : list byte -> A) (r : Reader) :
  Reader_Len r < n ->
  binary_Read n decode r
  = (inr (match r with [] => EOF | _ :: _ => ErrUnexpectedEOF end), []).
Proof. intros H. unfold binary_Read. rewrite ReadFull_short by assumption. reflexivity. Qed.

(** X4: input that ends inside a block header, with one to seven bytes
    where a header is due, makes [Parse] fail with the format error
    "Error reading file: unexpected EOF", wherever in the file that
    happens. *)
Theorem Parse_truncated_block_header (d : ByteSlice) (v : Locals) (r : Reader) :
  valid_header d -> loop_reaches d v r ->
  (0 < length r < 8)%nat ->
  Parse d = Err (ErrorReadingFile ErrUnexpectedEOF).
Proof.
  intros Hv Hr Hlen. rewrite (Parse_at d v r Hv Hr), blocks_unfold.
  rewrite binary_Read_short by (unfold Reader_Len, size_BlockHeader; lia).
  destruct r; [cbn [length] in Hlen; lia|reflexivity].
Qed.

Lemma Parse_truncated_block_header_witness :
  Parse (mkSlice (encode_header 1 ++ [x66; x6d; x74]) [])
  = Err (ErrorReadingFile ErrUnexpectedEOF).
Proof.
  apply (Parse_truncated_block_header
           (mkSlice (encode_header 1 ++ [x66; x6d; x74]) [])
           init_Locals [x66; x6d; x74]).
  - apply valid_header_encode.
  - apply loop_reaches_body.
  - simpl. lia.
Defined.

Lemma payload_size_block (id : list byte) (L n : Z) (d : ByteSlice) (bs : Z)
    (v : Locals) (r : Reader) :
  payload_size id L = Some n ->
  Reader_Len r < n ->
  block d bs {| BlockId := id; Length := L |} v r
  = Err (ErrorReadingBuffer (match r with [] => EOF | _ :: _ => ErrUnexpectedEOF end)).
Proof.
  unfold payload_size, sample_tags, block, record_block, sample_block.
  cbn [map fst existsb BlockId Length].
  intros Hn Hlt.
  destruct (bytes_eqb id (tag "fmt "));
    [injection Hn as <-; rewrite binary_Read_short by assumption; reflexivity|].
  destruct (bytes_eqb id (tag "info"));
    [injection Hn as <-; rewrite binary_Read_short by assumption; reflexivity|].
  repeat match goal with
         | |- context [if bytes_eqb id ?t then _ else _] =>
             destruct (bytes_eqb id t);
             [injection Hn as <-; rewrite binary_Read_short by assumption;
              reflexivity|]
         end.
  discriminate Hn.
Qed.

(** X5: input that ends inside the payload of a known block makes
    [Parse] fail with the format error "Error reading buffer": the
    payload is 8 bytes for ["fmt "], 264 for ["info"] and [2 * (L / 2)]
    for a sample block of declared length [L]; the cause is [EOF] when
    no payload byte is there and [unexpected EOF] otherwise. *)
Theorem Parse_truncated_payload (d : ByteSlice) (v : Locals)
    (id p : list byte) (L n : Z) :
  valid_header d ->
  loop_reaches d v (id ++ le32 L ++ p) ->
  length id = 4%nat ->
  0 <= L < 2 ^ 32 ->
  payload_size id L = Some n ->
  Z.of_nat (length p) < n ->
  Parse d = Err (ErrorReadingBuffer
                   (match p with [] => EOF | _ :: _ => ErrUnexpectedEOF end)).
Proof.
  intros Hv Hr Hid HL Hn Hp.
  rewrite (Parse_at d v _ Hv Hr), blocks_unfold.
  rewrite read_block_header by assumption.
  rewrite Z.mod_small by assumption.
  rewrite (payload_size_block id L n) by assumption.
  reflexivity.
Qed.

Lemma Parse_truncated_payload_witness :
  Parse (mkSlice (encode_header 1 ++ tag "ecg3" ++ le32 7 ++ [x01; x00; x02]) [])
  = Err (ErrorReadingBuffer ErrUnexpectedEOF).
Proof.
  apply (Parse_truncated_payload
           (mkSlice (encode_header 1 ++ tag "ecg3" ++ le32 7 ++ [x01; x00; x02]) [])
           init_Locals (tag "ecg3") [x01; x00; x02] 7 6).
  - apply valid_header_encode.
  - apply (loop_reaches_body 1 (tag "ecg3" ++ le32 7 ++ [x01; x00; x02]) []).
  - reflexivity.
  - lia.
  - reflexivity.
  - simpl. lia.
Defined.

(** ** Declared lengths and stored checksums of known blocks *)

(** A known block whose payload bytes are all there: they are decoded
    and the checksum is verified on what follows. *)
Lemma known_block_run (id p : list byte) (L n : Z) (v : Locals) :
  payload_size id L = Some n ->
  Z.of_nat (length p) = n ->
  exists v', forall (d : ByteSlice) (bs : Z) (tail : list byte),
    block d bs {| BlockId := id; Length := L |} v (p ++ tail)
    = reader <- verifyChecksum d bs L tail ;; Ok (v', reader).
Proof.
  unfold payload_size, sample_tags, block, record_block, sample_block.
  cbn [map fst existsb BlockId Length].
  intros Hn Hp.
  repeat match goal with
         | |- context [if bytes_eqb id ?t then _ else _] =>
             destruct (bytes_eqb id t);
             [injection Hn as Hn; eexists; intros d bs tail; cbv iota;
              match goal with
              | |- context [binary_Read ?s ?dec (p ++ tail)] =>
                  replace s with (Z.of_nat (length p))
                    by (rewrite Hp; symmetry; exact Hn)
              end;
              rewrite binary_Read_app;
              destruct (verifyChecksum d bs _ tail); reflexivity|]
         end.
  discriminate Hn.
Qed.

Lemma verifyChecksum_out_of_range (d : ByteSlice) (pre r0 : list byte) (L : Z)
    (r : Reader) :
  elems d = pre ++ r0 ->
  Z.of_nat (length (r0 ++ beyond d)) < 8 + L ->
  verifyChecksum d (len d - Reader_Len r0) L r = Panic SliceBoundsOutOfRange.
Proof.
  intros E Hlt. unfold verifyChecksum.
  destruct (binary_Read 4 LittleEndian_Uint32 r) as [res r1].
  rewrite (slice_at d pre r0 L E).
  destruct (Z.leb_spec (8 + L) (Z.of_nat (length (r0 ++ beyond d)))); [lia|].
  rewrite andb_false_r. reflexivity.
Qed.

(** X6: a known block whose payload is complete but whose declared
    length reaches past the end of the buffer's backing array makes
    [Parse] panic: the span of the checksum is sliced out of the
    buffer without a bounds test. *)
Theorem Parse_declared_length_out_of_range (d : ByteSlice) (v : Locals)
    (id p tail : list byte) (L n : Z) :
  valid_header d ->
  loop_reaches d v (id ++ le32 L ++ p ++ tail) ->
  length id = 4%nat ->
  0 <= L < 2 ^ 32 ->
  payload_size id L = Some n ->
  Z.of_nat (length p) = n ->
  Z.of_nat (length ((id ++ le32 L ++ p ++ tail) ++ beyond d)) < 8 + L ->
  Parse d = Panic SliceBoundsOutOfRange.
Proof.
  intros Hv Hr Hid HL Hn Hp Hlt.
  destruct (loop_reaches_suffix d v _ Hr) as [pre E].
  destruct (known_block_run id p L n v Hn Hp) as [v' Hb].
  rewrite (Parse_at d v _ Hv Hr), blocks_unfold.
  rewrite read_block_header by assumption.
  rewrite Z.mod_small by assumption.
  rewrite Hb, (verifyChecksum_out_of_range d pre _ L tail E Hlt).
  reflexivity.
Qed.

Lemma Parse_declared_length_out_of_range_witness :
  Parse (mkSlice (encode_header 1 ++ tag "fmt " ++ le32 1000
                    ++ [x01; x2c; x01; xc8; x00; x02; x00; x00]
                    ++ [x00; x00; x00; x00])
           (repeat x00 100))
  = Panic SliceBoundsOutOfRange.
Proof.
  apply (Parse_declared_length_out_of_range
           (mkSlice (encode_header 1 ++ tag "fmt " ++ le32 1000
                       ++ [x01; x2c; x01; xc8; x00; x02; x00; x00]
                       ++ [x00; x00; x00; x00])
              (repeat x00 100))
           init_Locals (tag "fmt ") [x01; x2c; x01; xc8; x00; x02; x00; x00]
           [x00; x00; x00; x00] 1000 8).
  - apply valid_header_encode.
  - apply (loop_reaches_body 1 _ (repeat x00 100)).
  - reflexivity.
  - lia.
  - reflexivity.
  - reflexivity.
  - simpl. lia.
Defined.

Lemma fmt_block_run (d : ByteSlice) (v : Locals) (bs L : Z) (p tail : list byte) :
  length p = 8%nat ->
  block d bs {| BlockId := tag "fmt "; Length := L |} v (p ++ tail)
  = reader <- verifyChecksum d bs L tail ;;
    Ok (set_fmtBlock v (decode_FmtBlock p), reader).
Proof.
  intros Hp. rewrite block_fmt. unfold record_block.
  change size_FmtBlock with (Z.of_nat 8). rewrite <- Hp, binary_Read_app.
  cbn [Length]. destruct (verifyChecksum d bs L tail); reflexivity.
Qed.

(** X7: the length a ["fmt "] block declares is not compared with the
    size of the record.  Whatever it is, the eight bytes after the block
    header are decoded and the four after them are the stored checksum;
    the declared length only sets the span that is summed.  With the
    stored value equal to that sum the loop goes on with the decoded
    block, and otherwise [Parse] fails with the checksum error. *)
Theorem Parse_fmt_declared_length (d : ByteSlice) (v : Locals)
    (p stored rest : list byte) (L : Z) :
  valid_header d ->
  loop_reaches d v (tag "fmt " ++ le32 L ++ p ++ stored ++ rest) ->
  length p = 8%nat ->
  length stored = 4%nat ->
  0 <= L < 2 ^ 32 ->
  8 + L <= Z.of_nat (length ((tag "fmt " ++ le32 L ++ p ++ stored ++ rest)
                               ++ beyond d)) ->
  let sum := byte_sum (firstn (Z.to_nat (8 + L))
                         ((tag "fmt " ++ le32 L ++ p ++ stored ++ rest)
                            ++ beyond d)) mod 2 ^ 32 in
  (LittleEndian_Uint32 stored = sum ->
   loop_reaches d (set_fmtBlock v (decode_FmtBlock p)) rest) /\
  (LittleEndian_Uint32 stored <> sum ->
   Parse d = Err (ChecksumDoesNotMatch (LittleEndian_Uint32 stored) sum)).
Proof.
  intros Hv Hr Hp Hst HL Hcap sum.
  destruct (loop_reaches_suffix d v _ Hr) as [pre E].
  set (r0 := tag "fmt " ++ le32 L ++ p ++ stored ++ rest) in *.
  assert (Hh : binary_Read size_BlockHeader decode_BlockHeader r0
               = (inl {| BlockId := tag "fmt "; Length := L |}, p ++ stored ++ rest)).
  { unfold r0. rewrite read_block_header, Z.mod_small by (trivial; lia).
    reflexivity. }
  assert (Hb : block d (len d - Reader_Len r0) {| BlockId := tag "fmt "; Length := L |}
                 v (p ++ stored ++ rest)
               = if LittleEndian_Uint32 stored =? sum
                 then Ok (set_fmtBlock v (decode_FmtBlock p), rest)
                 else Err (ChecksumDoesNotMatch (LittleEndian_Uint32 stored) sum)).
  { rewrite fmt_block_run by assumption.
    rewrite (verifyChecksum_span d pre r0 _ stored rest L E (proj1 HL) Hcap eq_refl Hst).
    fold sum. destruct (LittleEndian_Uint32 stored =? sum); reflexivity. }
  split; intros Hs.
  - apply Z.eqb_eq in Hs. rewrite Hs in Hb.
    exact (reaches_next d v r0 _ _ _ _ Hr Hh Hb).
  - apply Z.eqb_neq in Hs. rewrite Hs in Hb.
    rewrite (Parse_at d v r0 Hv Hr), blocks_unfold, Hh, Hb. reflexivity.
Qed.

Lemma Parse_fmt_declared_length_witness :
  loop_reaches
    (mkSlice (encode_header 1 ++ tag "fmt " ++ le32 0
                ++ [x01; x2c; x01; xc8; x00; x02; x00; x00]
                ++ [x67; x01; x00; x00] ++ []) [])
    (set_fmtBlock init_Locals
       (decode_FmtBlock [x01; x2c; x01; xc8; x00; x02; x00; x00])) [].
Proof.
  refine (proj1 (Parse_fmt_declared_length
                   (mkSlice (encode_header 1 ++ tag "fmt " ++ le32 0
                               ++ [x01; x2c; x01; xc8; x00; x02; x00; x00]
                               ++ [x67; x01; x00; x00] ++ []) [])
                   init_Locals [x01; x2c; x01; xc8; x00; x02; x00; x00]
                   [x67; x01; x00; x00] [] 0 _ _ _ _ _ _) _).
  - apply valid_header_encode.
  - apply (loop_reaches_body 1 _ []).
  - reflexivity.
  - reflexivity.
  - lia.
  - simpl. lia.
  - reflexivity.
Defined.

Lemma verifyChecksum_no_stored (d : ByteSlice) (pre r0 partial : list byte) (L : Z) :
  elems d = pre ++ r0 ->
  0 <= L ->
  8 + L <= Z.of_nat (length (r0 ++ beyond d)) ->
  (length partial < 4)%nat ->
  byte_sum (firstn (Z.to_nat (8 + L)) (r0 ++ beyond d)) mod 2 ^ 32 <> 0 ->
  verifyChecksum d (len d - Reader_Len r0) L partial
  = Err (ChecksumDoesNotMatch 0
           (byte_sum (firstn (Z.to_nat (8 + L)) (r0 ++ beyond d)) mod 2 ^ 32)).
Proof.
  intros E HL Hcap Hp Hs. unfold verifyChecksum.
  rewrite binary_Read_short by (unfold Reader_Len; lia).
  rewrite (slice_at d pre r0 L E).
  destruct (Z.leb_spec 0 (8 + L)); [|lia].
  destruct (Z.leb_spec (8 + L) (Z.of_nat (length (r0 ++ beyond d)))); [|lia].
  cbn [andb]. rewrite calcChecksum_byte_sum.
  destruct (Z.eqb_spec 0 (byte_sum (firstn (Z.to_nat (8 + L)) (r0 ++ beyond d))
                            mod 2 ^ 32)) as [Heq|_]; [|reflexivity].
  symmetry in Heq. contradiction.
Qed.

(** X8: a known block that is cut off after its payload, with fewer
    than four bytes where the stored checksum is due, is not reported as
    a read error.  The failed read is ignored, the stored value stays 0,
    and [Parse] fails with a checksum error that reports 0 against the
    sum of the block, whenever that sum is not itself 0 modulo 2^32. *)
Theorem Parse_missing_checksum (d : ByteSlice) (v : Locals)
    (id p partial : list byte) (L n : Z) :
  valid_header d ->
  loop_reaches d v (id ++ le32 L ++ p ++ partial) ->
  length id = 4%nat ->
  0 <= L < 2 ^ 32 ->
  payload_size id L = Some n ->
  Z.of_nat (length p) = n ->
  (length partial < 4)%nat ->
  8 + L <= Z.of_nat (length ((id ++ le32 L ++ p ++ partial) ++ beyond d)) ->
  byte_sum (firstn (Z.to_nat (8 + L))
              ((id ++ le32 L ++ p ++ partial) ++ beyond d)) mod 2 ^ 32 <> 0 ->
  Parse d
  = Err (ChecksumDoesNotMatch 0
           (byte_sum (firstn (Z.to_nat (8 + L))
                        ((id ++ le32 L ++ p ++ partial) ++ beyond d)) mod 2 ^ 32)).
Proof.
  intros Hv Hr Hid HL Hn Hp Hpart Hcap Hs.
  destruct (loop_reaches_suffix d v _ Hr) as [pre E].
  destruct (known_block_run id p L n v Hn Hp) as [v' Hb].
  rewrite (Parse_at d v _ Hv Hr), blocks_unfold.
  rewrite read_block_header by assumption.
  rewrite Z.mod_small by assumption.
  rewrite Hb, (verifyChecksum_no_stored d pre _ partial L E (proj1 HL) Hcap Hpart Hs).
  reflexivity.
Qed.

Lemma Parse_missing_checksum_witness :
  Parse (mkSlice (encode_header 1 ++ tag "ecg " ++ le32 4
                    ++ [x05; x00; xff; xff] ++ [xd1; x02]) [])
  = Err (ChecksumDoesNotMatch 0 854).
Proof.
  apply (Parse_missing_checksum
           (mkSlice (encode_header 1 ++ tag "ecg " ++ le32 4
                       ++ [x05; x00; xff; xff] ++ [xd1; x02]) [])
           init_Locals (tag "ecg ") [x05; x00; xff; xff] [xd1; x02] 4 4).
  - apply valid_header_encode.
  - apply (loop_reaches_body 1 _ []).
  - reflexivity.
  - lia.
  - reflexivity.
  - reflexivity.
  - simpl. lia.
  - simpl. lia.
  - vm_compute. discriminate.
Defined.

(** A sample block with all its payload and a four-byte stored value. *)
Lemma sample_block_laid_out (d : ByteSlice) (v : Locals) (id : list byte)
    (set : Locals -> list Z -> Locals) (p stored rest : list byte) :
  In (id, set) sample_tags ->
  loop_reaches d v (block_span id p ++ stored ++ rest) ->
  Nat.Even (length p) ->
  Z.of_nat (length p) < 2 ^ 32 ->
  length stored = 4%nat ->
  binary_Read size_BlockHeader decode_BlockHeader (block_span id p ++ stored ++ rest)
  = (inl {| BlockId := id; Length := Z.of_nat (length p) |}, p ++ stored ++ rest) /\
  block d (len d - Reader_Len (block_span id p ++ stored ++ rest))
    {| BlockId := id; Length := Z.of_nat (length p) |} v (p ++ stored ++ rest)
  = if LittleEndian_Uint32 stored =? byte_sum (block_span id p) mod 2 ^ 32
    then Ok (set v (decode_int16s p), rest)
    else Err (ChecksumDoesNotMatch (LittleEndian_Uint32 stored)
                (byte_sum (block_span id p) mod 2 ^ 32)).
Proof.
  intros Hin Hr [k Hk] Hlt Hst.
  pose proof (sample_tag_length id set Hin) as Hid.
  destruct (loop_reaches_suffix d v _ Hr) as [pre E].
  split.
  - unfold block_span. rewrite <- !app_assoc.
    rewrite read_block_header, Z.mod_small by (trivial; lia). reflexivity.
  - rewrite (block_sample id set) by assumption.
    rewrite (sample_block_run d pre _ p (block_span id p) stored rest id); trivial;
      try lia.
    + destruct (LittleEndian_Uint32 stored =? _); reflexivity.
    + replace (Z.of_nat (length p)) with (Z.of_nat k * 2) by lia.
      rewrite Z.div_mul by lia. lia.
    + rewrite !length_app, length_block_span by assumption. lia.
    + replace (Z.to_nat (8 + Z.of_nat (length p)))
        with (length (block_span id p) + 0)%nat
        by (rewrite length_block_span by assumption; lia).
      rewrite <- !app_assoc, firstn_app_2. cbn [firstn]. apply app_nil_r.
Qed.

(** X9: tampering is detected.  A sample block whose stored checksum
    was computed for its payload, and in whose payload one byte was
    changed afterwards, makes [Parse] fail with the checksum error that
    carries the stored value and the different sum of the bytes found. *)
Theorem Parse_tampered_payload (d : ByteSlice) (v : Locals) (id : list byte)
    (set : Locals -> list Z -> Locals) (a b rest : list byte) (x y : byte) :
  valid_header d ->
  In (id, set) sample_tags ->
  loop_reaches d v
    (block_span id (a ++ y :: b)
       ++ le32 (byte_sum (block_span id (a ++ x :: b)) mod 2 ^ 32) ++ rest) ->
  x <> y ->
  Nat.Even (length (a ++ y :: b)) ->
  Z.of_nat (length (a ++ y :: b)) < 2 ^ 32 ->
  byte_sum (block_span id (a ++ x :: b)) mod 2 ^ 32
  <> byte_sum (block_span id (a ++ y :: b)) mod 2 ^ 32 /\
  Parse d = Err (ChecksumDoesNotMatch
                   (byte_sum (block_span id (a ++ x :: b)) mod 2 ^ 32)
                   (byte_sum (block_span id (a ++ y :: b)) mod 2 ^ 32)).
Proof.
  intros Hv Hin Hr Hxy Hev Hlt.
  assert (Hne : byte_sum (block_span id (a ++ x :: b)) mod 2 ^ 32
                <> byte_sum (block_span id (a ++ y :: b)) mod 2 ^ 32).
  { unfold block_span.
    replace (length (a ++ x :: b)) with (length (a ++ y :: b))
      by (rewrite !length_app; reflexivity).
    rewrite !(app_assoc id), !(app_assoc (id ++ _)).
    apply byte_sum_tamper, Hxy. }
  split; [exact Hne|].
  destruct (sample_block_laid_out d v id set _ _ rest Hin Hr Hev Hlt (length_le32 _))
    as [Hh Hb].
  rewrite LittleEndian_Uint32_le32, Z.mod_mod in Hb by lia.
  apply Z.eqb_neq in Hne. rewrite Hne in Hb.
  rewrite (Parse_at d v _ Hv Hr), blocks_unfold, Hh, Hb. reflexivity.
Qed.

Lemma Parse_tampered_payload_witness :
  byte_sum (block_span (tag "ecg ") ([x05; x00] ++ xff :: [xff])) mod 2 ^ 32
  <> byte_sum (block_span (tag "ecg ") ([x05; x00] ++ xfe :: [xff])) mod 2 ^ 32 /\
  Parse (mkSlice (encode_header 1
                    ++ block_span (tag "ecg ") ([x05; x00] ++ xfe :: [xff])
                    ++ le32 (byte_sum (block_span (tag "ecg ")
                                         ([x05; x00] ++ xff :: [xff])) mod 2 ^ 32)
                    ++ []) [])
  = Err (ChecksumDoesNotMatch
           (byte_sum (block_span (tag "ecg ") ([x05; x00] ++ xff :: [xff])) mod 2 ^ 32)
           (byte_sum (block_span (tag "ecg ") ([x05; x00] ++ xfe :: [xff])) mod 2 ^ 32)).
Proof.
  apply (Parse_tampered_payload
           (mkSlice (encode_header 1
                       ++ block_span (tag "ecg ") ([x05; x00] ++ xfe :: [xff])
                       ++ le32 (byte_sum (block_span (tag "ecg ")
                                            ([x05; x00] ++ xff :: [xff])) mod 2 ^ 32)
                       ++ []) [])
           init_Locals (tag "ecg ") set_leadISamples [x05; x00] [xff] [] xff xfe).
  - apply valid_header_encode.
  - simpl. tauto.
  - apply (loop_reaches_body 1 _ []).
  - discriminate.
  - exists 2%nat. reflexivity.
  - simpl. lia.
Defined.

(** ** Unknown blocks *)

Lemma Reader_Read_prefix (a rest : list byte) :
  a ++ rest <> [] ->
  Reader_Read (Z.of_nat (length a)) (a ++ rest) = (inl a, rest).
Proof.
  intros Hne. unfold Reader_Read, Reader_Len.
  destruct (a ++ rest) as [|x l] eqn:E; [contradiction|].
  rewrite <- E. rewrite Z.min_l by (rewrite length_app; lia).
  rewrite Nat2Z.id, firstn_app, skipn_app, Nat.sub_diag, firstn_all, skipn_all.
  cbn [firstn skipn app]. rewrite app_nil_r. reflexivity.
Qed.

(** The [default] case on a reader that holds the bytes it asks for. *)
Lemma unknown_block_run (d : ByteSlice) (bs : Z) (v : Locals)
    (id skipped rest : list byte) (L : Z) :
  known_tag id = false ->
  Z.of_nat (length skipped) = (L + 4) mod 2 ^ 32 ->
  skipped ++ rest <> [] ->
  block d bs {| BlockId := id; Length := L |} v (skipped ++ rest) = Ok (v, rest).
Proof.
  intros Hk Hs Hne. rewrite block_default by assumption.
  unfold discard_block, wrap_uint32, ChecksumLength. cbn [Length].
  rewrite <- Hs, Reader_Read_prefix by assumption. reflexivity.
Qed.

Lemma loop_reaches_unknown (d : ByteSlice) (v : Locals)
    (id skipped rest : list byte) (L : Z) :
  length id = 4%nat ->
  known_tag id = false ->
  0 <= L < 2 ^ 32 ->
  Z.of_nat (length skipped) = (L + 4) mod 2 ^ 32 ->
  skipped ++ rest <> [] ->
  loop_reaches d v (id ++ le32 L ++ skipped ++ rest) ->
  loop_reaches d v rest.
Proof.
  intros Hid Hk HL Hs Hne Hr.
  apply (reaches_next d v _ {| BlockId := id; Length := L |} (skipped ++ rest) v rest Hr).
  - rewrite read_block_header, Z.mod_small by assumption. reflexivity.
  - apply unknown_block_run; assumption.
Qed.

Lemma Parse_without_unknown (version : Z) (id skipped body sp : list byte) (L : Z) :
  length id = 4%nat ->
  known_tag id = false ->
  0 <= L < 2 ^ 32 ->
  Z.of_nat (length skipped) = (L + 4) mod 2 ^ 32 ->
  skipped ++ body <> [] ->
  Parse (mkSlice (encode_header version ++ id ++ le32 L ++ skipped ++ body) sp)
  = Parse (mkSlice (encode_header version ++ body) sp).
Proof.
  intros Hid Hk HL Hs Hne.
  set (d1 := mkSlice (encode_header version ++ id ++ le32 L ++ skipped ++ body) sp).
  assert (Hr : loop_reaches d1 init_Locals body).
  { apply (loop_reaches_unknown d1 init_Locals id skipped body L); trivial.
    apply loop_reaches_body. }
  rewrite (Parse_at d1 init_Locals body (valid_header_encode _ _ _) Hr).
  rewrite (Parse_at _ init_Locals body (valid_header_encode version body sp)
             (loop_reaches_body version body sp)).
  f_equal.
  apply (blocks_indep _ d1 _ (encode_header version ++ id ++ le32 L ++ skipped)
           (encode_header version)).
  - unfold d1. cbn [elems]. rewrite <- !app_assoc. reflexivity.
  - reflexivity.
  - reflexivity.
Qed.

(** X10: an unknown block is passed over.  With the [Length + 4] bytes
    it declares behind its header, the loop comes to the byte after
    them with every variable unchanged, wherever the block stands; and a
    file with such a block right after the file header parses as the
    file without it. *)
Theorem Parse_skips_unknown_block (id skipped : list byte) (L : Z) :
  length id = 4%nat ->
  known_tag id = false ->
  0 <= L -> L + 4 < 2 ^ 32 ->
  Z.of_nat (length skipped) = L + 4 ->
  (forall d v rest,
     loop_reaches d v (id ++ le32 L ++ skipped ++ rest) -> loop_reaches d v rest) /\
  (forall version body sp,
     Parse (mkSlice (encode_header version ++ id ++ le32 L ++ skipped ++ body) sp)
     = Parse (mkSlice (encode_header version ++ body) sp)).
Proof.
  intros Hid Hk HL Hw Hs.
  assert (Hne : forall rest, skipped ++ rest <> []).
  { intros rest E. apply app_eq_nil in E as [-> _]. cbn [length] in Hs. lia. }
  split.
  - intros d v rest. apply loop_reaches_unknown; trivial; try lia.
    rewrite Z.mod_small; lia.
  - intros version body sp. apply Parse_without_unknown; trivial; try lia.
    rewrite Z.mod_small; lia.
Qed.

Lemma Parse_skips_unknown_block_witness :
  (forall d v rest,
     loop_reaches d v (tag "junk" ++ le32 2 ++ [x01; x02; x03; x04; x05; x06] ++ rest) ->
     loop_reaches d v rest) /\
  (forall version body sp,
     Parse (mkSlice (encode_header version ++ tag "junk" ++ le32 2
                       ++ [x01; x02; x03; x04; x05; x06] ++ body) sp)
     = Parse (mkSlice (encode_header version ++ body) sp)).
Proof.
  apply (Parse_skips_unknown_block (tag "junk") [x01; x02; x03; x04; x05; x06] 2).
  - reflexivity.
  - reflexivity.
  - lia.
  - lia.
  - reflexivity.
Defined.

(** X11: the size of the discard buffer is computed in [uint32] and
    wraps.  For an unknown block that declares a length of 2^32 - 4 or
    more, only [Length + 4 - 2^32] bytes, at most three, are skipped,
    and the file parses as the file without the block header and those
    bytes, provided some byte follows the block header. *)
Theorem Parse_unknown_length_wraps (version : Z) (id skipped body sp : list byte)
    (L : Z) :
  length id = 4%nat ->
  known_tag id = false ->
  2 ^ 32 - 4 <= L < 2 ^ 32 ->
  Z.of_nat (length skipped) = L + 4 - 2 ^ 32 ->
  skipped ++ body <> [] ->
  Parse (mkSlice (encode_header version ++ id ++ le32 L ++ skipped ++ body) sp)
  = Parse (mkSlice (encode_header version ++ body) sp).
Proof.
  intros Hid Hk HL Hs Hne. apply Parse_without_unknown; trivial; try lia.
  rewrite Hs, <- (Z.mod_add (L + 4) (-1)) by lia.
  rewrite Z.mod_small; lia.
Qed.

Lemma Parse_unknown_length_wraps_witness :
  Parse (mkSlice (encode_header 1 ++ tag "junk" ++ le32 4294967292 ++ []
                    ++ encode_block (tag "fmt ") [x01; x2c; x01; xc8; x00; x02; x00; x00])
           [])
  = Parse (mkSlice (encode_header 1
                      ++ encode_block (tag "fmt ") [x01; x2c; x01; xc8; x00; x02; x00; x00])
             []).
Proof.
  apply (Parse_unknown_length_wraps 1 (tag "junk") []
           (encode_block (tag "fmt ") [x01; x2c; x01; xc8; x00; x02; x00; x00])
           [] 4294967292).
  - reflexivity.
  - reflexivity.
  - lia.
  - reflexivity.
  - discriminate.
Defined.

(** X12: the one short read the [default] case reports.  When the input
    ends right after the header of an unknown block, [Parse] fails with
    "Error reading input: EOF", whatever length the block declares. *)
Theorem Parse_unknown_block_at_end (d : ByteSlice) (v : Locals) (id : list byte)
    (L : Z) :
  valid_header d ->
  loop_reaches d v (id ++ le32 L) ->
  length id = 4%nat ->
  known_tag id = false ->
  0 <= L < 2 ^ 32 ->
  Parse d = Err (ErrorReadingInput EOF).
Proof.
  intros Hv Hr Hid Hk HL.
  rewrite (Parse_at d v _ Hv Hr), blocks_unfold.
  rewrite <- (app_nil_r (le32 L)), read_block_header by assumption.
  rewrite block_default by assumption. reflexivity.
Qed.

Lemma Parse_unknown_block_at_end_witness :
  Parse (mkSlice (encode_header 1 ++ tag "junk" ++ le32 0) [x00; x00; x00; x00])
  = Err (ErrorReadingInput EOF).
Proof.
  apply (Parse_unknown_block_at_end
           (mkSlice (encode_header 1 ++ tag "junk" ++ le32 0) [x00; x00; x00; x00])
           init_Locals (tag "junk") 0).
  - apply valid_header_encode.
  - apply (loop_reaches_body 1 _ [x00; x00; x00; x00]).
  - reflexivity.
  - reflexivity.
  - lia.
Defined.

(** ** Repeated blocks and the info block *)



Lemma block_info (d : ByteSlice) (bs L : Z) (v : Locals) (r : Reader) :
  block d bs {| BlockId := tag "info"; Length := L |} v r
  = '(i, r') <- record_block size_InfoBlock decode_InfoBlock d bs
                  {| BlockId := tag "info"; Length := L |} r ;;
    Ok (set_infoBlock v i, r').
Proof. reflexivity. Qed.

(** An info block of 264 payload bytes, laid out with its checksum. *)
Lemma blocks_info_step (d : ByteSlice) (pre payload rest : list byte) (v : Locals) :
  elems d = pre ++ encode_block (tag "info") payload ++ rest ->
  length payload = 264%nat ->
  blocks (S (length (encode_block (tag "info") payload ++ rest))) d v
    (encode_block (tag "info") payload ++ rest)
  = blocks (S (length rest)) d (set_infoBlock v (decode_InfoBlock payload)) rest.
Proof.
  intros E Hlen.
  set (r0 := encode_block (tag "info") payload ++ rest) in *.
  rewrite (blocks_unfold (length r0)).
  assert (Hr0 : r0 = tag "info" ++ le32 (Z.of_nat (length payload))
                     ++ payload ++ le32 (byte_sum (block_span (tag "info") payload) mod 2 ^ 32) ++ rest).
  { unfold r0, encode_block, block_span. rewrite <- !app_assoc. reflexivity. }
  rewrite Hr0 at 1. rewrite read_block_header by reflexivity.
  rewrite Z.mod_small by lia.
  rewrite block_info.
  erewrite (record_block_run _ _ d pre r0 payload (block_span (tag "info") payload));
    try eassumption; try lia; try reflexivity.
  - rewrite LittleEndian_Uint32_le32, Z.mod_mod, Z.eqb_refl by lia.
    cbn [bind]. apply blocks_fuel; [|lia].
    unfold r0. rewrite length_app. unfold encode_block. rewrite length_app, length_le32. lia.
  - rewrite Hlen. reflexivity.
  - unfold r0. rewrite !length_app. unfold encode_block.
    rewrite length_app, length_block_span, length_le32 by reflexivity. lia.
  - unfold r0. apply span_of_encode_block. reflexivity.
Qed.

Lemma bytes_at_head (a rest : list byte) (n : nat) :
  length a = n -> bytes_at (a ++ rest) 0 n = a.
Proof.
  intros <-. unfold bytes_at. rewrite skipn_O, firstn_app, Nat.sub_diag, firstn_all.
  cbn [firstn]. apply app_nil_r.
Qed.

Lemma bytes_at_tail (a rest : list byte) (k off n : nat) :
  length a = k -> bytes_at (a ++ rest) (k + off) n = bytes_at rest off n.
Proof.
  intros <-. unfold bytes_at. rewrite skipn_app.
  rewrite skipn_all2 by lia.
  replace (length a + off - length a)%nat with off by lia. reflexivity.
Qed.

Lemma decode_InfoBlock_fields (dr uuid udid model sw hw loc : list byte) :
  length dr = 32%nat -> length uuid = 40%nat -> length udid = 44%nat ->
  length model = 32%nat -> length sw = 32%nat -> length hw = 32%nat ->
  length loc = 52%nat ->
  decode_InfoBlock (dr ++ uuid ++ udid ++ model ++ sw ++ hw ++ loc)
  = {| DateRecorded := dr; RecordingUUID := uuid; PhoneUDID := udid;
       PhoneModel := model; RecorderSoftware := sw; RecorderHardware := hw;
       Location := loc |}.
Proof.
  intros H1 H2 H3 H4 H5 H6 H7. unfold decode_InfoBlock.
  rewrite (bytes_at_head dr _ 32 H1).
  rewrite (bytes_at_tail dr _ 32 0 40 H1), (bytes_at_head uuid _ 40 H2).
  rewrite (bytes_at_tail dr _ 32 40 44 H1), (bytes_at_tail uuid _ 40 0 44 H2),
    (bytes_at_head udid _ 44 H3).
  rewrite (bytes_at_tail dr _ 32 84 32 H1), (bytes_at_tail uuid _ 40 44 32 H2),
    (bytes_at_tail udid _ 44 0 32 H3), (bytes_at_head model _ 32 H4).
  rewrite (bytes_at_tail dr _ 32 116 32 H1), (bytes_at_tail uuid _ 40 76 32 H2),
    (bytes_at_tail udid _ 44 32 32 H3), (bytes_at_tail model _ 32 0 32 H4),
    (bytes_at_head sw _ 32 H5).
  rewrite (bytes_at_tail dr _ 32 148 32 H1), (bytes_at_tail uuid _ 40 108 32 H2),
    (bytes_at_tail udid _ 44 64 32 H3), (bytes_at_tail model _ 32 32 32 H4),
    (bytes_at_tail sw _ 32 0 32 H5), (bytes_at_head hw _ 32 H6).
  rewrite (bytes_at_tail dr _ 32 180 52 H1), (bytes_at_tail uuid _ 40 140 52 H2),
    (bytes_at_tail udid _ 44 96 52 H3), (bytes_at_tail model _ 32 64 52 H4),
    (bytes_at_tail sw _ 32 32 52 H5), (bytes_at_tail hw _ 32 0 52 H6).
  rewrite <- (app_nil_r loc), (bytes_at_head loc [] 52 H7), app_nil_r.
  reflexivity.
Qed.

(** X14: the info block is read back field by field.  A file of the
    header, a ["fmt "] block and an ["info"] block whose payload is the
    seven fields one after the other, 32, 40, 44, 32, 32, 32 and 52
    bytes wide, parses to a document whose info block holds exactly
    those fields and which has no lead. *)
Theorem Parse_info_fields (version : Z) (fmt dr uuid udid model sw hw loc sp : list byte) :
  length fmt = 8%nat ->
  length dr = 32%nat -> length uuid = 40%nat -> length udid = 44%nat ->
  length model = 32%nat -> length sw = 32%nat -> length hw = 32%nat ->
  length loc = 52%nat ->
  exists doc,
    Parse (mkSlice (encode_header version
                      ++ encode_block (tag "fmt ") fmt
                      ++ encode_block (tag "info")
                           (dr ++ uuid ++ udid ++ model ++ sw ++ hw ++ loc)) sp)
    = Ok doc /\
    Info doc = Some {| DateRecorded := dr; RecordingUUID := uuid; PhoneUDID := udid;
                       PhoneModel := model; RecorderSoftware := sw;
                       RecorderHardware := hw; Location := loc |} /\
    Samples doc = {| LeadI := None; LeadII := None; LeadIII := None;
                     AVR := None; AVL := None; AVF := None |}.
Proof.
  intros Hf H1 H2 H3 H4 H5 H6 H7.
  rewrite Parse_body.
  rewrite (blocks_fmt_step _ (encode_header version)) by (trivial; reflexivity).
  rewrite <- (app_nil_r (encode_block (tag "info") _)).
  rewrite (blocks_info_step _ (encode_header version ++ encode_block (tag "fmt ") fmt)).
  - rewrite decode_InfoBlock_fields by assumption.
    eexists. split; [reflexivity|]. split; reflexivity.
  - cbn [elems]. rewrite <- !app_assoc. reflexivity.
  - rewrite !length_app, H1, H2, H3, H4, H5, H6, H7. reflexivity.
Qed.

Lemma Parse_info_fields_witness :
  exists doc,
    Parse (mkSlice (encode_header 1
                      ++ encode_block (tag "fmt ") [x01; x2c; x01; xc8; x00; x02; x00; x00]
                      ++ encode_block (tag "info")
                           (repeat x31 32 ++ repeat x32 40 ++ repeat x33 44
                              ++ repeat x34 32 ++ repeat x35 32 ++ repeat x36 32
                              ++ repeat x37 52)) [])
    = Ok doc /\
    Info doc = Some {| DateRecorded := repeat x31 32; RecordingUUID := repeat x32 40;
                       PhoneUDID := repeat x33 44; PhoneModel := repeat x34 32;
                       RecorderSoftware := repeat x35 32;
                       RecorderHardware := repeat x36 32;
                       Location := repeat x37 52 |} /\
    Samples doc = {| LeadI := None; LeadII := None; LeadIII := None;
                     AVR := None; AVL := None; AVF := None |}.
Proof.
  apply (Parse_info_fields 1 [x01; x2c; x01; xc8; x00; x02; x00; x00]
           (repeat x31 32) (repeat x32 40) (repeat x33 44) (repeat x34 32)
           (repeat x35 32) (repeat x36 32) (repeat x37 52) []);
    reflexivity.
Defined.

(** ** What the loop keeps and what it reports *)

Lemma LittleEndian_Uint16_range (b : list byte) :
  0 <= LittleEndian_Uint16 b < 2 ^ 16.
Proof.
  unfold LittleEndian_Uint16.
  pose proof (u8_range (byte_at b 0)). pose proof (u8_range (byte_at b 1)).
  rewrite lor_shiftl_add by lia. lia.
Qed.

Lemma LittleEndian_Uint32_range (b : list byte) :
  0 <= LittleEndian_Uint32 b < 2 ^ 32.
Proof.
  unfold LittleEndian_Uint32.
  pose proof (u8_range (byte_at b 0)). pose proof (u8_range (byte_at b 1)).
  pose proof (u8_range (byte_at b 2)). pose proof (u8_range (byte_at b 3)).
  rewrite (lor_shiftl_add (u8 (byte_at b 0))) by lia.
  rewrite (lor_shiftl_add _ (u8 (byte_at b 2)) 16) by lia.
  rewrite (lor_shiftl_add _ (u8 (byte_at b 3)) 24) by lia.
  lia.
Qed.

Lemma decode_int16s_range_le (n : nat) (bs : list byte) :
  (length bs <= n)%nat -> Forall in_int16 (decode_int16s bs).
Proof.
  revert bs. induction n as [|n IH]; intros bs Hle.
  - destruct bs; [constructor|cbn [length] in Hle; lia].
  - destruct bs as [|b0 [|b1 bs]]; try constructor.
    + apply wrap_int16_range.
    + apply IH. cbn [length] in Hle. lia.
Qed.

Lemma decode_int16s_range (bs : list byte) : Forall in_int16 (decode_int16s bs).
Proof. apply (decode_int16s_range_le (length bs)). lia. Qed.

Lemma decode_FmtBlock_ok (bs : list byte) : fmt_ok (Some (decode_FmtBlock bs)).
Proof.
  cbn [fmt_ok decode_FmtBlock Frequency_ Resolution Reserved].
  repeat split; apply LittleEndian_Uint16_range.
Qed.

Lemma length_bytes_at (bs : list byte) (off n : nat) :
  (off + n <= length bs)%nat -> length (bytes_at bs off n) = n.
Proof.
  intros H. unfold bytes_at. rewrite length_firstn, length_skipn. lia.
Qed.

Lemma decode_InfoBlock_ok (bs : list byte) :
  length bs = 264%nat -> info_ok (Some (decode_InfoBlock bs)).
Proof.
  intros H. cbn [info_ok decode_InfoBlock DateRecorded RecordingUUID PhoneUDID
                   PhoneModel RecorderSoftware RecorderHardware Location].
  repeat split; apply length_bytes_at; rewrite H; simpl; lia.
Qed.

Lemma record_block_value {A : Type} (size : Z) (decode : list byte -> A)
    (d : ByteSlice) (bs : Z) (h : BlockHeader) (r r' : Reader) (x : A) :
  record_block size decode d bs h r = Ok (x, r') ->
  exists p, Z.of_nat (length p) = Z.max 0 size /\ x = decode p.
Proof.
  unfold record_block.
  destruct (binary_Read size decode r) as [[y|e] r1] eqn:E; [|discriminate].
  destruct (verifyChecksum d bs (Length h) r1); cbn [bind]; try discriminate.
  intros [= <- <-]. apply binary_Read_ok in E as (p & _ & Hp & Hy). eauto.
Qed.

Lemma sample_block_value (d : ByteSlice) (bs : Z) (h : BlockHeader)
    (r r' : Reader) (s : list Z) :
  sample_block d bs h r = Ok (s, r') -> Forall in_int16 s.
Proof.
  unfold sample_block.
  destruct (binary_Read _ decode_int16s r) as [[y|e] r1] eqn:E; [|discriminate].
  destruct (verifyChecksum d bs (Length h) r1); cbn [bind]; try discriminate.
  intros [= <- <-]. apply binary_Read_ok in E as (p & _ & _ & ->).
  apply decode_int16s_range.
Qed.

Ltac Locals_ok_set :=
  intros (H1 & H2 & H3 & H4 & H5 & H6 & H7 & H8) Hnew;
  unfold Locals_ok;
  repeat match goal with |- _ /\ _ => split end; assumption.

Lemma set_leadISamples_ok (v : Locals) (s : list Z) :
  Locals_ok v -> lead_ok (Some s) -> Locals_ok (set_leadISamples v s).
Proof. Locals_ok_set. Qed.

Lemma set_leadIISamples_ok (v : Locals) (s : list Z) :
  Locals_ok v -> lead_ok (Some s) -> Locals_ok (set_leadIISamples v s).
Proof. Locals_ok_set. Qed.

Lemma set_leadIIISamples_ok (v : Locals) (s : list Z) :
  Locals_ok v -> lead_ok (Some s) -> Locals_ok (set_leadIIISamples v s).
Proof. Locals_ok_set. Qed.

Lemma set_aVRSamples_ok (v : Locals) (s : list Z) :
  Locals_ok v -> lead_ok (Some s) -> Locals_ok (set_aVRSamples v s).
Proof. Locals_ok_set. Qed.

Lemma set_aVLSamples_ok (v : Locals) (s : list Z) :
  Locals_ok v -> lead_ok (Some s) -> Locals_ok (set_aVLSamples v s).
Proof. Locals_ok_set. Qed.

Lemma set_aVFSamples_ok (v : Locals) (s : list Z) :
  Locals_ok v -> lead_ok (Some s) -> Locals_ok (set_aVFSamples v s).
Proof. Locals_ok_set. Qed.

Lemma set_fmtBlock_ok (v : Locals) (f : FmtBlock) :
  Locals_ok v -> fmt_ok (Some f) -> Locals_ok (set_fmtBlock v f).
Proof. Locals_ok_set. Qed.

Lemma set_infoBlock_ok (v : Locals) (i : InfoBlock) :
  Locals_ok v -> info_ok (Some i) -> Locals_ok (set_infoBlock v i).
Proof. Locals_ok_set. Qed.

Lemma block_keeps_ok (d : ByteSlice) (bs : Z) (h : BlockHeader)
    (v v' : Locals) (r r' : Reader) :
  Locals_ok v -> block d bs h v r = Ok (v', r') -> Locals_ok v'.
Proof.
  intros Hok.
  block_cases;
    match goal with
    | |- context [record_block ?s ?dec d bs h r] =>
        destruct (record_block s dec d bs h r) as [[x r1]|e|p] eqn:E;
        cbn [bind]; try discriminate; intros [= <- <-];
        apply record_block_value in E as (p & Hp & ->);
        first [apply set_fmtBlock_ok; [assumption|apply decode_FmtBlock_ok]
              |apply set_infoBlock_ok;
               [assumption
               |apply decode_InfoBlock_ok; unfold size_InfoBlock in Hp; lia]]
    | |- context [sample_block d bs h r] =>
        destruct (sample_block d bs h r) as [[x r1]|e|p] eqn:E;
        cbn [bind]; try discriminate; intros [= <- <-];
        apply sample_block_value in E;
        first [apply set_leadISamples_ok | apply set_leadIISamples_ok
              |apply set_leadIIISamples_ok | apply set_aVRSamples_ok
              |apply set_aVLSamples_ok | apply set_aVFSamples_ok];
        assumption
    | |- context [discard_block h r] =>
        destruct (discard_block h r) as [r1|e|p] eqn:E;
        cbn [bind]; try discriminate; intros [= <- <-]; assumption
    end.
Qed.

Lemma blocks_keeps_ok (fuel : nat) (d : ByteSlice) (v v' : Locals) (r : Reader) :
  Locals_ok v -> blocks fuel d v r = Some (Ok v') -> Locals_ok v'.
Proof.
  revert v r. induction fuel as [|fuel IH]; intros v r Hok; [discriminate|].
  cbn [blocks].
  destruct (binary_Read size_BlockHeader decode_BlockHeader r)
    as [[h|[|]] r1] eqn:E; try discriminate.
  - destruct (block d _ h v r1) as [[v1 r2]|e|p] eqn:B; try discriminate.
    apply IH. eapply block_keeps_ok; eassumption.
  - intros [= <-]. assumption.
Qed.

Lemma init_Locals_ok : Locals_ok init_Locals.
Proof. unfold Locals_ok. cbn. tauto. Qed.

(** X15: what a document always satisfies.  In every document [Parse]
    returns, the samples of each lead that is present are values of
    [int16], the info block, when present, has its seven fields at their
    fixed widths, and [mainsFrequency] is 50 or 60. *)
Theorem Parse_document_ok (d : ByteSlice) (doc : EcgData) :
  Parse d = Ok doc ->
  lead_ok (LeadI (Samples doc)) /\ lead_ok (LeadII (Samples doc)) /\
  lead_ok (LeadIII (Samples doc)) /\ lead_ok (AVR (Samples doc)) /\
  lead_ok (AVL (Samples doc)) /\ lead_ok (AVF (Samples doc)) /\
  info_ok (Info doc) /\
  (MainsFrequency doc = 50 \/ MainsFrequency doc = 60).
Proof.
  intros H. apply Parse_Ok_inv in H as (v & f & Hb & Hf & Hdoc).
  assert (Hok : Locals_ok v).
  { unfold Parse_blocks in Hb. destruct (read_header _) as [hd r].
    eapply blocks_keeps_ok; [apply init_Locals_ok|eassumption]. }
  destruct Hok as (H1 & H2 & H3 & H4 & H5 & H6 & _ & H8).
  unfold build_result in Hdoc. rewrite Hf in Hdoc. injection Hdoc as <-.
  cbn. repeat split; trivial.
  destruct (negb _); auto.
Qed.

Lemma Parse_document_ok_witness :
  lead_ok (Some [5; -1; -32768]) /\ lead_ok None /\ lead_ok None /\ lead_ok None /\
  lead_ok None /\ lead_ok None /\ info_ok None /\ (60 = 50 \/ 60 = 60).
Proof.
  apply (Parse_document_ok
           (mkSlice (encode_header 1
                       ++ encode_block (tag "fmt ") [x01; x2c; x01; xc8; x00; x02; x00; x00]
                       ++ encode_block (tag "ecg ") [x05; x00; xff; xff; x00; x80]) [])
           {| Frequency := float32_of_Z 300; MainsFrequency := 60;
              Gain := float32_of_Z 5000;
              Samples := {| LeadI := Some [5; -1; -32768]; LeadII := None;
                            LeadIII := None; AVR := None; AVL := None; AVF := None |};
              Info := None |}).
  vm_compute. reflexivity.
Defined.

Lemma verifyChecksum_Err (d : ByteSlice) (bs L : Z) (r : Reader) (e : error) :
  verifyChecksum d bs L r = Err e -> Parse_error e.
Proof.
  unfold verifyChecksum.
  destruct (binary_Read 4 LittleEndian_Uint32 r) as [res r1] eqn:E.
  destruct (slice_expr d bs (bs + 8 + L)) as [span|]; [|discriminate].
  set (stored := match res with inl c => c | inr _ => 0 end).
  destruct (Z.eqb_spec stored (calcChecksum span)) as [|Hne]; cbn [negb];
    [discriminate|].
  intros [= <-]. cbn [Parse_error]. split; [assumption|]. split.
  - subst stored. destruct res as [c|io]; [|lia].
    unfold binary_Read in E. destruct (ReadFull 4 r) as [[p|io] r2]; [|discriminate].
    injection E as <- _. apply LittleEndian_Uint32_range.
  - rewrite calcChecksum_byte_sum. apply Z.mod_pos_bound. lia.
Qed.

Lemma block_Err (d : ByteSlice) (bs : Z) (h : BlockHeader) (v : Locals)
    (r : Reader) (e : error) :
  block d bs h v r = Err e -> Parse_error e.
Proof.
  unfold block, record_block, sample_block, discard_block.
  repeat match goal with
         | |- context [if bytes_eqb ?a ?b then _ else _] =>
             destruct (bytes_eqb a b)
         end;
    match goal with
    | |- context [binary_Read ?n ?dec r] =>
        destruct (binary_Read n dec r) as [[x|io] r1];
        [destruct (verifyChecksum d bs (Length h) r1) as [r2|e'|p] eqn:V;
         cbn [bind]; try discriminate; intros [= <-];
         eapply verifyChecksum_Err; eassumption
        |cbn [bind]; intros [= <-]; exact I]
    | |- context [Reader_Read ?n r] =>
        unfold Reader_Read; destruct r; cbn [bind]; try discriminate;
        intros [= <-]; reflexivity
    end.
Qed.

Lemma blocks_Err (fuel : nat) (d : ByteSlice) (v : Locals) (r : Reader) (e : error) :
  blocks fuel d v r = Some (Err e) -> Parse_error e.
Proof.
  revert v r. induction fuel as [|fuel IH]; intros v r; [discriminate|].
  cbn [blocks].
  destruct (binary_Read size_BlockHeader decode_BlockHeader r)
    as [[h|[|]] r1] eqn:E; try discriminate.
  - destruct (block d _ h v r1) as [[v1 r2]|e'|p] eqn:B; try discriminate.
    + apply IH.
    + intros [= <-]. eapply block_Err; eassumption.
  - intros [= <-]. reflexivity.
Qed.

(** X16: the errors of [Parse].  An error [Parse] returns is the
    signature error, "Error reading file" with [unexpected EOF] (a
    clean end of input where a header is due ends the loop and is no
    error), "Error reading buffer", "Error reading input" with [EOF],
    or a checksum error; and a checksum error always carries two
    different values of [uint32]. *)
Theorem Parse_errors (d : ByteSlice) (e : error) :
  Parse d = Err e -> Parse_error e.
Proof.
  intros H.
  destruct (Parse_cases d) as [E|[_ [(v & Hb & E)|[(e' & Hb & E)|(p & _ & E)]]]];
    rewrite E in H; try discriminate.
  - injection H as <-. exact I.
  - unfold build_result in H. destruct (fmtBlock v); discriminate.
  - injection H as <-. unfold Parse_blocks in Hb.
    destruct (read_header _) as [hd r]. eapply blocks_Err; eassumption.
Qed.

Lemma Parse_errors_witness : Parse_error (ChecksumDoesNotMatch 91906 359).
Proof.
  apply (Parse_errors
           (mkSlice (encode_header 1
                       ++ encode_block (tag "fmt ") [x01; x2c; x01; xc8; x00; x02; x00; x00]
                       ++ encode_block (tag "ecg2") [x01; x00; x02]) [])).
  vm_compute. reflexivity.
Defined.

(** ** Floats of 16-bit values *)

(** The three facts below are checked on every 16-bit value. *)
Lemma all_below_spec (n : nat) (P : Z -> bool) :
  all_below n P = true -> forall z, 0 <= z < 2 ^ Z.of_nat n -> P z = true.
Proof.
  revert P. induction n as [|n IH]; intros P H z Hz.
  - cbn [all_below] in H. replace z with 0 by (simpl in Hz; lia). exact H.
  - cbn [all_below] in H. apply andb_true_iff in H as [H0 H1].
    rewrite Nat2Z.inj_succ, Z.pow_succ_r in Hz by lia.
    pose proof (Z.div_mod z 2 ltac:(lia)) as Hd.
    pose proof (Z.mod_pos_bound z 2 ltac:(lia)) as Hm.
    assert (Hq : 0 <= z / 2 < 2 ^ Z.of_nat n) by lia.
    destruct (Z.eq_dec (z mod 2) 0) as [E|E].
    + specialize (IH _ H0 (z / 2) Hq). cbv beta in IH.
      replace (2 * (z / 2)) with z in IH by lia. exact IH.
    + specialize (IH _ H1 (z / 2) Hq). cbv beta in IH.
      replace (2 * (z / 2) + 1) with z in IH by lia. exact IH.
Qed.

Lemma forall_uint16 (P : Z -> bool) :
  all_below 16 P = true -> forall z, 0 <= z < 2 ^ 16 -> P z = true.
Proof. intros H z Hz. apply (all_below_spec 16 P H). exact Hz. Qed.

Lemma float32_of_uint16_finite (z : Z) :
  0 <= z < 2 ^ 16 -> is_finite (float32_of_Z z) = true.
Proof. apply (forall_uint16 (fun z => is_finite (float32_of_Z z))). vm_compute. reflexivity. Qed.

Lemma gain_finite (r : Z) :
  0 <= r < 2 ^ 16 -> r <> 0 ->
  is_finite_signed false (float32_div (float32_of_Z 1000000) (float32_of_Z r)) = true.
Proof.
  intros Hr Hnz.
  pose proof (forall_uint16
                (fun r => (r =? 0)
                          || is_finite_signed false
                               (float32_div (float32_of_Z 1000000) (float32_of_Z r)))
                ltac:(vm_compute; reflexivity) r Hr) as H.
  cbv beta in H. apply orb_true_iff in H as [H|H]; [|exact H].
  apply Z.eqb_eq in H. contradiction.
Qed.

Lemma float32_of_int16_signed (s : Z) :
  in_int16 s -> s <> 0 ->
  is_finite_signed (s <? 0) (float32_of_Z s) = true.
Proof.
  intros Hs Hnz.
  pose proof (forall_uint16
                (fun n => (n - 32768 =? 0)
                          || is_finite_signed (n - 32768 <? 0) (float32_of_Z (n - 32768)))
                ltac:(vm_compute; reflexivity) (s + 32768)) as H.
  cbv beta in H. replace (s + 32768 - 32768) with s in H by lia.
  unfold in_int16 in Hs.
  specialize (H ltac:(lia)). apply orb_true_iff in H as [H|H]; [|exact H].
  apply Z.eqb_eq in H. contradiction.
Qed.

Lemma marshal_float32_finite (f : spec_float) :
  is_finite f = true -> marshal_float32 f = Ok (JFloat f).
Proof. destruct f; try discriminate; reflexivity. Qed.

(** X17: [Convert] and the resolution.  When [Parse] returns a document,
    [Convert] returns a JSON value unless the resolution of the format
    block is 0, and in that case it fails with the encoder's error for
    a value that is not finite: the frequency is always a finite float,
    and the gain is one exactly when the resolution is not 0. *)
Theorem Convert_resolution (d : ByteSlice) (doc : EcgData) :
  Parse d = Ok doc ->
  exists v f,
    Parse_blocks d = Some (Ok v) /\ fmtBlock v = Some f /\
    is_finite (Frequency doc) = true /\
    (Resolution f = 0 -> Convert d = Err JsonUnsupportedValue) /\
    (Resolution f <> 0 ->
     is_finite_signed false (Gain doc) = true /\ exists j, Convert d = Ok j).
Proof.
  intros H. pose proof H as HP.
  apply Parse_Ok_inv in H as (v & f & Hb & Hf & Hdoc).
  assert (Hok : Locals_ok v).
  { unfold Parse_blocks in Hb. destruct (read_header _) as [hd r].
    eapply blocks_keeps_ok; [apply init_Locals_ok|eassumption]. }
  destruct Hok as (_ & _ & _ & _ & _ & _ & H7 & _).
  rewrite Hf in H7. destruct H7 as (Hfr & Hres & _).
  exists v, f. split; [assumption|]. split; [assumption|].
  unfold build_result in Hdoc. rewrite Hf in Hdoc.
  apply (f_equal (fun o => match o with Ok a => a | _ => doc end)) in Hdoc.
  cbv beta iota in Hdoc. subst doc.
  unfold Convert. rewrite HP. cbn [bind]. unfold Marshal.
  cbn [Frequency Gain].
  pose proof (float32_of_uint16_finite _ Hfr) as Hfin.
  rewrite (marshal_float32_finite _ Hfin). cbn [bind].
  split; [assumption|]. split.
  - intros ->. reflexivity.
  - intros Hnz. pose proof (gain_finite _ Hres Hnz) as Hg.
    split; [assumption|].
    destruct (float32_div _ _); try discriminate Hg.
    cbn [marshal_float32 bind]. eexists. reflexivity.
Qed.

Lemma Convert_resolution_witness :
  exists v f,
    Parse_blocks (mkSlice (encode_header 1
                    ++ encode_block (tag "fmt ") [x01; x2c; x01; xc8; x00; x02; x00; x00])
                    []) = Some (Ok v) /\
    fmtBlock v = Some f /\
    is_finite (float32_of_Z 300) = true /\
    (Resolution f = 0 ->
     Convert (mkSlice (encode_header 1
                ++ encode_block (tag "fmt ") [x01; x2c; x01; xc8; x00; x02; x00; x00])
                []) = Err JsonUnsupportedValue) /\
    (Resolution f <> 0 ->
     is_finite_signed false (float32_of_Z 5000) = true /\
     exists j,
       Convert (mkSlice (encode_header 1
                  ++ encode_block (tag "fmt ") [x01; x2c; x01; xc8; x00; x02; x00; x00])
                  []) = Ok j).
Proof.
  apply (Convert_resolution
           (mkSlice (encode_header 1
              ++ encode_block (tag "fmt ") [x01; x2c; x01; xc8; x00; x02; x00; x00]) [])
           {| Frequency := float32_of_Z 300; MainsFrequency := 60;
              Gain := float32_of_Z 5000;
              Samples := {| LeadI := None; LeadII := None; LeadIII := None;
                            AVR := None; AVL := None; AVF := None |};
              Info := None |}).
  vm_compute. reflexivity.
Defined.

(** ** [calcMillivolts] *)

(** X18: a scale of zero.  [calcMillivolts] does not test its divisor:
    with a scale of positive or negative zero every sample other than 0
    becomes an infinity, of the sample's sign for +0 and of the opposite
    sign for -0, and the sample 0 becomes not-a-number. *)
Theorem calcMillivolts_zero_scale (data : list Z) (sz : bool) :
  Forall in_int16 data ->
  calcMillivolts data (S754_zero sz)
  = map (fun s => if s =? 0 then S754_nan else S754_infinity (xorb (s <? 0) sz)) data.
Proof.
  intros H. unfold calcMillivolts. apply map_ext_in.
  intros s Hin. rewrite Forall_forall in H. specialize (H s Hin).
  destruct (Z.eqb_spec s 0) as [->|Hnz]; [reflexivity|].
  pose proof (float32_of_int16_signed s H Hnz) as Hf.
  unfold float32_div. destruct (float32_of_Z s) as [| | |sg m e]; try discriminate Hf.
  cbn [is_finite_signed] in Hf. apply Bool.eqb_prop in Hf. subst sg.
  reflexivity.
Qed.

Lemma calcMillivolts_zero_scale_witness :
  calcMillivolts [2000; 0; -1000] (S754_zero false)
  = map (fun s => if s =? 0 then S754_nan else S754_infinity (xorb (s <? 0) false))
      [2000; 0; -1000].
Proof.
  apply calcMillivolts_zero_scale.
  repeat constructor; unfold in_int16; lia.
Defined.

(** The repository's test vector for [calcMillivolts]: 1, 0.5, 0, -0.5
    and -1. *)
Example TestCalcMillivolts :
  calcMillivolts [2000; 1000; 0; -1000; -2000] (float32_of_Z 2000)
  = [float32_of_Z 1; binary_normalize 24 128 1 (-1) false; S754_zero false;
     binary_normalize 24 128 (-1) (-1) false; float32_of_Z (-1)].
Proof. vm_compute. reflexivity. Qed.

(** ** Memory behind the buffer *)

Lemma slice_expr_spare (e sp : list byte) (lo hi : Z) (span : list byte) :
  slice_expr (mkSlice e []) lo hi = Some span ->
  slice_expr (mkSlice e sp) lo hi = Some span.
Proof.
  unfold slice_expr, cap. cbn [elems beyond length].
  destruct (Z.leb_spec 0 lo); [|discriminate].
  destruct (Z.leb_spec lo hi); [|discriminate].
  destruct (Z.leb_spec hi (Z.of_nat (length e) + Z.of_nat 0)); [|discriminate].
  destruct (Z.leb_spec hi (Z.of_nat (length e) + Z.of_nat (length sp))); [|lia].
  cbn [andb]. intros [= <-]. f_equal.
  rewrite app_nil_r, skipn_app, firstn_app.
  replace (Z.to_nat lo - length e)%nat with 0%nat by lia.
  replace (Z.to_nat (hi - lo) - length (skipn (Z.to_nat lo) e))%nat with 0%nat
    by (rewrite length_skipn; lia).
  cbn [skipn firstn]. apply app_nil_r.
Qed.

Lemma verifyChecksum_spare (e sp : list byte) (bs L : Z) (r : Reader) :
  verifyChecksum (mkSlice e []) bs L r <> Panic SliceBoundsOutOfRange ->
  verifyChecksum (mkSlice e sp) bs L r = verifyChecksum (mkSlice e []) bs L r.
Proof.
  unfold verifyChecksum.
  destruct (binary_Read 4 LittleEndian_Uint32 r) as [res r1].
  destruct (slice_expr (mkSlice e []) bs (bs + 8 + L)) as [span|] eqn:S;
    [|intros H; contradiction H; reflexivity].
  intros _. rewrite (slice_expr_spare e sp _ _ span S). reflexivity.
Qed.

Lemma block_spare (e sp : list byte) (bs : Z) (h : BlockHeader) (v : Locals)
    (r : Reader) :
  block (mkSlice e []) bs h v r <> Panic SliceBoundsOutOfRange ->
  block (mkSlice e sp) bs h v r = block (mkSlice e []) bs h v r.
Proof.
  unfold block, record_block, sample_block.
  repeat match goal with
         | |- context [if bytes_eqb ?a ?b then _ else _] =>
             destruct (bytes_eqb a b)
         end;
    try reflexivity;
    match goal with
    | |- context [binary_Read ?n ?dec r] =>
        destruct (binary_Read n dec r) as [[x|io] r1]; [|reflexivity];
        intros H; rewrite verifyChecksum_spare; [reflexivity|];
        intros V; rewrite V in H; apply H; reflexivity
    end.
Qed.

Lemma blocks_spare (fuel : nat) (e sp : list byte) (v : Locals) (r : Reader) :
  blocks fuel (mkSlice e []) v r <> Some (Panic SliceBoundsOutOfRange) ->
  blocks fuel (mkSlice e sp) v r = blocks fuel (mkSlice e []) v r.
Proof.
  revert v r. induction fuel as [|fuel IH]; intros v r; [reflexivity|].
  cbn [blocks]. unfold len. cbn [elems].
  destruct (binary_Read size_BlockHeader decode_BlockHeader r)
    as [[h|[|]] r1]; try reflexivity.
  intros H.
  assert (Hb : block (mkSlice e []) (Z.of_nat (length e) - Reader_Len r) h v r1
               <> Panic SliceBoundsOutOfRange)
    by (intros B; rewrite B in H; apply H; reflexivity).
  rewrite (block_spare e sp _ h v r1 Hb).
  destruct (block (mkSlice e []) _ h v r1) as [[v1 r2]|er|p]; try reflexivity.
  apply IH, H.
Qed.

(** X19: the bytes of the backing array behind the buffer matter only to
    a run that would otherwise panic.  When [Parse] on a buffer without
    spare capacity does not end in the slice-bounds panic, it gives the
    same result on the same bytes with any content behind them. *)
Theorem Parse_spare_capacity (e sp : list byte) :
  Parse (mkSlice e []) <> Panic SliceBoundsOutOfRange ->
  Parse (mkSlice e sp) = Parse (mkSlice e []).
Proof.
  unfold Parse, NewReader. cbn [elems].
  destruct (read_header e) as [hd r].
  destruct (negb _); [reflexivity|].
  intros H. rewrite blocks_spare; [reflexivity|].
  intros B. rewrite B in H. apply H. reflexivity.
Qed.

Lemma Parse_spare_capacity_witness :
  Parse (mkSlice (encode_header 1
                    ++ encode_block (tag "fmt ") [x01; x2c; x01; xc8; x00; x02; x00; x00]
                    ++ encode_block (tag "ecg ") [x05; x00; xff; xff])
           [x01; x02; x03])
  = Parse (mkSlice (encode_header 1
                      ++ encode_block (tag "fmt ") [x01; x2c; x01; xc8; x00; x02; x00; x00]
                      ++ encode_block (tag "ecg ") [x05; x00; xff; xff])
             []).
Proof.
  apply Parse_spare_capacity.
  vm_compute. discriminate.
Defined.

(** ** Number of iterations *)

Lemma blocks_bound (fuel : nat) (d : ByteSlice) (v : Locals) (r : Reader) :
  (length r < 8 * fuel)%nat -> blocks fuel d v r <> None.
Proof.
  revert v r. induction fuel as [|fuel IH]; intros v r Hlt; [lia|].
  cbn [blocks].
  destruct (binary_Read size_BlockHeader decode_BlockHeader r)
    as [[h|[|]] r1] eqn:E; try discriminate.
  destruct (block d _ h v r1) as [[v' r']|e|p] eqn:B; try discriminate.
  apply IH. pose proof (iteration_consumes _ _ _ _ _ _ _ _ E B). lia.
Qed.

Lemma blocks_more_fuel (f1 f2 : nat) (d : ByteSlice) (v : Locals) (r : Reader)
    (o : outcome Locals) :
  blocks f1 d v r = Some o -> (f1 <= f2)%nat -> blocks f2 d v r = Some o.
Proof.
  revert f2 v r. induction f1 as [|f1 IH]; intros f2 v r H Hle; [discriminate|].
  destruct f2 as [|f2]; [lia|].
  cbn [blocks] in *.
  destruct (binary_Read size_BlockHeader decode_BlockHeader r)
    as [[h|[|]] r1]; trivial.
  destruct (block d _ h v r1) as [[v' r']|e|p]; trivial.
  apply IH; [assumption|lia].
Qed.

(** X20: the loop ends, and soon.  Every iteration that goes on has
    consumed at least the eight bytes of a block header, so on [n]
    unread bytes the loop reaches its outcome within [n / 8 + 1]
    iterations, and allowing more iterations does not change it. *)
Theorem blocks_iterations (d : ByteSlice) (v : Locals) (r : Reader) :
  exists o,
    blocks (S (length r / 8)) d v r = Some o /\
    forall fuel, (length r / 8 < fuel)%nat -> blocks fuel d v r = Some o.
Proof.
  destruct (blocks (S (length r / 8)) d v r) as [o|] eqn:E.
  - exists o. split; [reflexivity|].
    intros fuel Hlt. apply (blocks_more_fuel (S (length r / 8))); [assumption|lia].
  - exfalso. revert E. apply blocks_bound.
    pose proof (Nat.div_mod_eq (length r) 8) as Hd.
    pose proof (Nat.mod_upper_bound (length r) 8 ltac:(lia)). lia.
Qed.

(** ** An odd sample block at the end of a file *)

(** X21: a sample block of odd declared length that is laid out as the
    format has it, with all its payload bytes and four checksum bytes
    after them, and that ends the file, always makes [Parse] fail: the
    stored checksum is read one byte early, and when it does not match
    the error is a checksum error, and when it does the one byte left
    over is a block header cut short. *)
Theorem Parse_odd_block_at_end (d : ByteSlice) (v : Locals) (id : list byte)
    (set : Locals -> list Z -> Locals) (p : list byte) (z c0 c1 c2 c3 : byte) :
  valid_header d ->
  In (id, set) sample_tags ->
  loop_reaches d v (block_span id (p ++ [z]) ++ [c0; c1; c2; c3]) ->
  Nat.Even (length p) ->
  Z.of_nat (length (p ++ [z])) < 2 ^ 32 ->
  Parse d = Err (ErrorReadingFile ErrUnexpectedEOF) \/
  Parse d = Err (ChecksumDoesNotMatch (LittleEndian_Uint32 [z; c0; c1; c2])
                   (byte_sum (block_span id (p ++ [z])) mod 2 ^ 32)).
Proof.
  intros Hv Hin Hr [k Hk] Hlt.
  pose proof (sample_tag_length id set Hin) as Hid.
  destruct (loop_reaches_suffix d v _ Hr) as [pre E].
  set (L := Z.of_nat (length (p ++ [z]))) in *.
  assert (HL : L = 2 * Z.of_nat k + 1)
    by (unfold L; rewrite length_app; cbn [length]; lia).
  set (r0 := block_span id (p ++ [z]) ++ [c0; c1; c2; c3]) in *.
  assert (Hr0 : r0 = id ++ le32 L ++ p ++ [z; c0; c1; c2] ++ [c3]).
  { unfold r0, block_span. fold L. rewrite <- !app_assoc. reflexivity. }
  assert (Hb : blocks (S (length r0)) d v r0
               = if LittleEndian_Uint32 [z; c0; c1; c2]
                    =? byte_sum (block_span id (p ++ [z])) mod 2 ^ 32
                 then Some (Err (ErrorReadingFile ErrUnexpectedEOF))
                 else Some (Err (ChecksumDoesNotMatch
                                   (LittleEndian_Uint32 [z; c0; c1; c2])
                                   (byte_sum (block_span id (p ++ [z])) mod 2 ^ 32)))).
  { rewrite blocks_unfold.
    rewrite Hr0 at 1. rewrite read_block_header by assumption.
    rewrite Z.mod_small by lia.
    rewrite (block_sample id set) by assumption.
    rewrite (sample_block_run d pre r0 p (block_span id (p ++ [z]))
               [z; c0; c1; c2] [c3] id L); trivial; try lia.
    - destruct (LittleEndian_Uint32 [z; c0; c1; c2] =? _); [|reflexivity].
      cbn [bind]. rewrite (blocks_fuel _ 2); [reflexivity| |cbn [length]; lia].
      unfold r0. rewrite length_app. cbn [length]. lia.
    - rewrite HL. replace (2 * Z.of_nat k + 1) with (1 + Z.of_nat k * 2) by lia.
      rewrite Z.div_add by lia. change (1 / 2) with 0. lia.
    - unfold r0. rewrite !length_app, length_block_span by assumption.
      fold L. cbn [length]. unfold L. lia.
    - unfold r0.
      replace (Z.to_nat (8 + L)) with (length (block_span id (p ++ [z])) + 0)%nat
        by (rewrite length_block_span by assumption; unfold L; lia).
      rewrite <- !app_assoc, firstn_app_2. cbn [firstn]. apply app_nil_r. }
  rewrite (Parse_at d v r0 Hv Hr), Hb.
  destruct (LittleEndian_Uint32 [z; c0; c1; c2] =? _); [left|right]; reflexivity.
Qed.

Lemma Parse_odd_block_at_end_witness :
  Parse (mkSlice (encode_header 1
                    ++ encode_block (tag "fmt ") [x01; x2c; x01; xc8; x00; x02; x00; x00]
                    ++ block_span (tag "ecg2") ([x01; x00] ++ [x02])
                    ++ [x67; x01; x00; x00]) [])
  = Err (ErrorReadingFile ErrUnexpectedEOF) \/
  Parse (mkSlice (encode_header 1
                    ++ encode_block (tag "fmt ") [x01; x2c; x01; xc8; x00; x02; x00; x00]
                    ++ block_span (tag "ecg2") ([x01; x00] ++ [x02])
                    ++ [x67; x01; x00; x00]) [])
  = Err (ChecksumDoesNotMatch (LittleEndian_Uint32 [x02; x67; x01; x00])
           (byte_sum (block_span (tag "ecg2") ([x01; x00] ++ [x02])) mod 2 ^ 32)).
Proof.
  apply (Parse_odd_block_at_end
           (mkSlice (encode_header 1
                       ++ encode_block (tag "fmt ") [x01; x2c; x01; xc8; x00; x02; x00; x00]
                       ++ block_span (tag "ecg2") ([x01; x00] ++ [x02])
                       ++ [x67; x01; x00; x00]) [])
           (set_fmtBlock init_Locals
              (decode_FmtBlock [x01; x2c; x01; xc8; x00; x02; x00; x00]))
           (tag "ecg2") set_leadIISamples [x01; x00] x02 x67 x01 x00 x00).
  - apply valid_header_encode.
  - simpl. tauto.
  - apply (reaches_next _ init_Locals
             (encode_block (tag "fmt ") [x01; x2c; x01; xc8; x00; x02; x00; x00]
                ++ block_span (tag "ecg2") ([x01; x00] ++ [x02])
                ++ [x67; x01; x00; x00])
             {| BlockId := tag "fmt "; Length := 8 |}
             ([x01; x2c; x01; xc8; x00; x02; x00; x00] ++ le32 615
                ++ block_span (tag "ecg2") ([x01; x00] ++ [x02])
                ++ [x67; x01; x00; x00])).
    + apply (loop_reaches_body 1 _ []).
    + vm_compute. reflexivity.
    + vm_compute. reflexivity.
  - exists 1%nat. reflexivity.
  - simpl. lia.
Defined.

(** ** Values in the serialized document *)



